(** * Cached login and wallet-address helpers of the webmail client

  Shallow embedding of
  - [libs/skiff-front-utils/src/utils/walletUtils/walletUtils.ts]
    ([createEmail], [isCosmosHubAddress], [getWalletIcon],
    [abbreviateWalletAddress], [createAbbreviatedWalletEmail]);
  - the cached-login module ([setNextIDAndReload], [setDefaultEmailAlias],
    [tryCachedLogin]).

  JavaScript strings are modelled as [string], a sequence of code units;
  the browser's [localStorage] is a [gmap string string]; a call that the
  source wraps in [try]/[catch] has an outcome that says whether it threw;
  every call to a collaborator is recorded, in order, in the log of the
  run. *)

From Stdlib Require Import ZArith Ascii String.
From stdpp Require Import gmap strings list fin_maps.

Local Open Scope string_scope.
Local Open Scope Z_scope.
Local Open Scope list_scope.

(** ** JavaScript values shared by both modules *)

Module Js.

(** The outcome of evaluating a call that may throw. *)
Inductive Completion (A : Type) : Type :=
| Returns (a : A)
| Throws.
Arguments Returns {A} a.
Arguments Throws {A}.

(** [!s] for [s : string | undefined]: undefined and [''] are falsy. *)
Definition falsy_string (s : option string) : bool :=
  match s with
  | None => true
  | Some EmptyString => true
  | Some (String _ _) => false
  end.

(** Relative index of [String.prototype.slice]: a negative index counts
    from the end, and the result is clamped to [0, len]. *)
Definition relative_index (len i : Z) : Z :=
  if i <? 0 then Z.max (len + i) 0 else Z.min i len.

(** [s.slice(start, stop)]; [stop = None] is the one-argument call. *)
Definition slice (s : string) (start : Z) (stop : option Z) : string :=
  let len := Z.of_nat (String.length s) in
  let from := relative_index len start in
  let to := match stop with
            | None => len
            | Some e => relative_index len e
            end in
  substring (Z.to_nat from) (Z.to_nat (to - from)) s.

(** [x ?? d] *)
Definition nullish {A : Type} (x : option A) (d : A) : A :=
  match x with
  | Some v => v
  | None => d
  end.

End Js.

(** ** walletUtils.ts *)

Module WalletUtils.
Import Js.

Inductive Icon : Type := Ethereum | Atom | Solana.

(** The address validators come from packages outside this repository
    ([validator], [skiff-utils], [@keplr-wallet/cosmos]); they are taken as
    parameters.  [Bech32Address.validate] reports an invalid address by
    throwing. *)
Record Validators : Type := {
  isEthereumAddress : string -> bool;
  isENSName : string -> bool;
  isJunoAddress : string -> bool;
  isICNSName : string -> bool;
  isSolanaAddress : string -> bool;
  Bech32Address_validate : string -> string -> Completion unit
}.

(** [createEmail], line 16. *)
Definition createEmail (alias mailDomain : string) : string :=
  alias +:+ "@" +:+ mailDomain.

(** [abbreviateWalletAddress], lines 127-130. *)
Definition abbreviateWalletAddress
    (walletAddress : option string) (startChars endChars : option Z) : string :=
  match walletAddress with
  | None => ""
  | Some w =>
      if falsy_string walletAddress then ""
      else slice w 0 (Some (2 + nullish startChars 3))
             +:+ "..." +:+ slice w (- nullish endChars 4) None
  end.

(** [createAbbreviatedWalletEmail], lines 138-139. *)
Definition createAbbreviatedWalletEmail (walletAddr mailDomain : string) : string :=
  createEmail (abbreviateWalletAddress (Some walletAddr) None None) mailDomain.

Section WithValidators.
Context (V : Validators).

(** [isCosmosHubAddress], lines 45-55. *)
Definition isCosmosHubAddress (emailAlias : option string) : Completion bool :=
  match emailAlias with
  | None => Returns false
  | Some a =>
      if falsy_string emailAlias then Returns false
      else match Bech32Address_validate V a "cosmos" with
           | Returns _ => Returns true
           | Throws => Returns false
           end
  end.

(** [getWalletIcon], lines 62-75.  [a || b] evaluates [b] only when [a] is
    false, so a throw of [isCosmosHubAddress] would surface only when the
    Ethereum checks fail. *)
Definition getWalletIcon (alias : option string) : Completion (option Icon) :=
  match alias with
  | None => Returns None
  | Some a =>
      if falsy_string alias then Returns None
      else if isEthereumAddress V a || isENSName V a then Returns (Some Ethereum)
      else match isCosmosHubAddress alias with
           | Throws => Throws
           | Returns cosmos =>
               if cosmos || isJunoAddress V a || isICNSName V a
               then Returns (Some Atom)
               else if isSolanaAddress V a then Returns (Some Solana)
               else Returns None
           end
  end.

End WithValidators.

(** The words of the documentation ("the first five chars and last four
    chars"), on the list of characters of the address. *)
Definition firstChars (n : nat) (s : string) : string :=
  string_of_list_ascii (take n (list_ascii_of_string s)).

Definition lastChars (n : nat) (s : string) : string :=
  let l := list_ascii_of_string s in
  string_of_list_ascii (drop (length l - n) l).

End WalletUtils.


(** ** The cached-login module *)

Module CachedLogin.
Import Js.

(** *** Data *)

(** The JavaScript values that the refreshed user fields range over. *)
Inductive Value : Type :=
| VUndefined
| VNull
| VString (s : string)
| VObject (fields : list (string * string)).

(** [v !== undefined] *)
Definition is_defined (v : Value) : bool :=
  match v with
  | VUndefined => false
  | _ => true
  end.

(** The truthiness test of [if (v)]. *)
Definition truthy (v : Value) : bool :=
  match v with
  | VUndefined | VNull => false
  | VString EmptyString => false
  | VString (String _ _) => true
  | VObject _ => true
  end.

(** [models.User]: the fields the function reads or writes, and the rest. *)
Record User : Type := {
  userID : string;
  recoveryEmail : Value;
  unverifiedRecoveryEmail : Value;
  walletAddress : Value;
  rootOrgID : Value;
  publicData : Value;
  otherFields : list (string * Value)
}.

(** [GetSessionCacheQuery['currentUser']], when it is an object. *)
Record RefreshedUser : Type := {
  fresh_recoveryEmail : Value;
  fresh_unverifiedRecoveryEmail : Value;
  fresh_walletAddress : Value;
  fresh_rootOrgID : Value;
  fresh_publicData : Value
}.

(** What [decryptSessionCacheData] returns. *)
Record SessionCacheData : Type := {
  user : User;
  sessionSecrets : list (string * string)
}.

(** [res.data] of the [GetSessionCache] query; [currentUser] is [None] when
    the server sends [null] or leaves it out. *)
Record SessionCacheResponse : Type := {
  cacheKey : string;
  alternativeCacheKeys : list string;
  currentUser : option RefreshedUser
}.

Inductive LogicErrorType : Type := NotFound | BadRequest | NotAuthorized.

Record GraphQLError : Type := { extensionsCode : string }.

(** What [client.query] throws. *)
Inductive QueryError : Type :=
| ApolloError (graphQLErrors : list GraphQLError)
| OtherError (message : string).

(** How [await client.query] completes. *)
Inductive QueryOutcome : Type :=
| QueryReturned (res : SessionCacheResponse)
| QueryThrew (e : QueryError).

(** [window.location] and [window.parent.location] are objects; [!==]
    compares their identities. *)
Record Window : Type := {
  location : positive;
  parent_location : positive
}.

(** Every call the module makes to a collaborator or to the browser. *)
Inductive Event : Type :=
| GetSessionCacheForLatestUser
| QueryGetSessionCache
| DecryptSessionCacheData (encrypted key : string)
| LocalStorageGetItem (key : string)
| WriteSessionCacheData (data : SessionCacheData) (key : string)
| LocalStorageRemoveItem (key : string)
| ClearLatestUserIDCache
| SetNextUUID
| WindowLocationReload
| ConsoleLog (message : string)
| ConsoleError (message : string) (e : QueryError)
| SaveCurrentUserData (u : User)
| SendUserDataToMobileApp (u : User)
| QueryCurrentUserEmailAliases.

(** The collaborators, all from other packages ([skiff-front-graphql],
    [skiff-front-utils], [skiff-graphql], [skiff-utils], the Apollo client)
    and therefore parameters.  [decryptSessionCacheData] and
    [writeSessionCacheData] are only ever called inside [try] blocks and may
    throw; a throwing write still leaves some storage behind. *)
Record Environment : Type := {
  window : Window;
  isMobileApp : bool;
  getSessionCacheForLatestUser : gmap string string -> option string;
  client_query : QueryOutcome;
  decryptSessionCacheData : string -> string -> Completion SessionCacheData;
  writeSessionCacheData :
    SessionCacheData -> string -> gmap string string ->
    Completion unit * gmap string string;
  getSessionCacheKeyForUserID : string -> string;
  storageKey_SESSION_CACHE : string;
  clearLatestUserIDCache : gmap string string -> gmap string string;
  setNextUUID : gmap string string -> bool * gmap string string;
  isApolloLogicErrorType : option GraphQLError -> LogicErrorType -> bool
}.

(** *** Effects: local storage threaded through, calls logged in order *)

Record Run (A : Type) : Type := MkRun {
  result : A;
  storage : gmap string string;
  events : list Event
}.
Arguments MkRun {A} result storage events.
Arguments result {A} r.
Arguments storage {A} r.
Arguments events {A} r.

Definition Eff (A : Type) : Type := gmap string string -> Run A.

Definition ret {A : Type} (a : A) : Eff A :=
  fun ls => MkRun a ls [].

(** The log of what ran before, put in front of the log of a run. *)
Definition after {A : Type} (evs : list Event) (r : Run A) : Run A :=
  MkRun (result r) (storage r) (evs ++ events r).

Definition bind {A B : Type} (m : Eff A) (k : A -> Eff B) : Eff B :=
  fun ls =>
    let r := m ls in
    after (events r) (k (result r) (storage r)).

Notation "x <- m ;; k" := (bind m (fun x => k))
  (at level 100, m at next level, right associativity).
Notation "m ;; k" := (bind m (fun _ => k))
  (at level 100, right associativity).

(** A call that only shows in the log. *)
Definition emit (e : Event) : Eff unit :=
  fun ls => MkRun tt ls [e].

(** A call that reads storage. *)
Definition reading {A : Type} (e : Event) (f : gmap string string -> A) : Eff A :=
  fun ls => MkRun (f ls) ls [e].

(** A call that returns a value and rewrites storage. *)
Definition updating {A : Type} (e : Event)
    (f : gmap string string -> A * gmap string string) : Eff A :=
  fun ls => MkRun (f ls).1 (f ls).2 [e].

Definition localStorage_getItem (key : string) : Eff (option string) :=
  reading (LocalStorageGetItem key) (fun ls => ls !! key).

Definition localStorage_removeItem (key : string) : Eff unit :=
  updating (LocalStorageRemoveItem key) (fun ls => (tt, delete key ls)).

(** *** The functions *)

Section WithEnvironment.
Context (E : Environment).

(** [window.location !== window.parent.location], line 59. *)
Definition insideFrame : bool :=
  negb (Pos.eqb (location (window E)) (parent_location (window E))).

(** The catch condition of lines 80-85. *)
Definition sessionCacheIsInvalid (e : QueryError) : bool :=
  match e with
  | ApolloError graphQLErrors =>
      isApolloLogicErrorType E (head graphQLErrors) NotFound
      || isApolloLogicErrorType E (head graphQLErrors) BadRequest
      || isApolloLogicErrorType E (head graphQLErrors) NotAuthorized
  | OtherError _ => false
  end.

(** [setNextIDAndReload], lines 28-37. *)
Definition setNextIDAndReload : Eff unit :=
  updating ClearLatestUserIDCache (fun ls => (tt, clearLatestUserIDCache E ls)) ;;
  shouldReload <- updating SetNextUUID (setNextUUID E) ;;
  if shouldReload : bool then emit WindowLocationReload else ret tt.

(** [setDefaultEmailAlias], lines 39-51, as far as it runs inside the call
    that starts it: the alias query is issued, and everything after the
    [await] belongs to a later turn of the event loop. *)
Definition setDefaultEmailAlias : Eff unit :=
  emit QueryCurrentUserEmailAliases.

(** The first [try] block, lines 99-109.  [decryptedUser] is assigned before
    the storage calls, so a throw of the write leaves it set. *)
Definition tryPrimaryKey (encrypted key : string) : Eff (option User) :=
  decrypted <- reading (DecryptSessionCacheData encrypted key)
                 (fun _ => decryptSessionCacheData E encrypted key) ;;
  match decrypted with
  | Throws => ret None
  | Returns sessionCacheData =>
      let decryptedUser := Some (user sessionCacheData) in
      item <- localStorage_getItem
                (getSessionCacheKeyForUserID E (userID (user sessionCacheData))) ;;
      match item with
      | Some _ => ret decryptedUser
      | None =>
          written <- updating (WriteSessionCacheData sessionCacheData key)
                       (writeSessionCacheData E sessionCacheData key) ;;
          match written with
          | Throws => ret decryptedUser
          | Returns _ =>
              localStorage_removeItem (storageKey_SESSION_CACHE E) ;;
              ret decryptedUser
          end
      end
  end.

(** The [for] loop of lines 114-122, with [decryptedUser] as accumulator.
    [break] is the last statement of the [try] body: it is reached only when
    neither the decryption nor the write threw. *)
Fixpoint tryAlternativeKeys (encrypted key : string) (alternatives : list string)
    (decryptedUser : option User) : Eff (option User) :=
  match alternatives with
  | [] => ret decryptedUser
  | alternativeCacheKey :: rest =>
      decrypted <- reading (DecryptSessionCacheData encrypted alternativeCacheKey)
                     (fun _ => decryptSessionCacheData E encrypted alternativeCacheKey) ;;
      match decrypted with
      | Throws => tryAlternativeKeys encrypted key rest decryptedUser
      | Returns sessionCacheData =>
          written <- updating (WriteSessionCacheData sessionCacheData key)
                       (writeSessionCacheData E sessionCacheData key) ;;
          match written with
          | Throws =>
              tryAlternativeKeys encrypted key rest (Some (user sessionCacheData))
          | Returns _ => ret (Some (user sessionCacheData))
          end
      end
  end.

(** Lines 97-123: the primary key, then the alternatives when
    [!decryptedUser]. *)
Definition resolveDecryptedUser (encrypted : string) (res : SessionCacheResponse)
    : Eff (option User) :=
  decryptedUser <- tryPrimaryKey encrypted (cacheKey res) ;;
  match decryptedUser with
  | Some _ => ret decryptedUser
  | None =>
      tryAlternativeKeys encrypted (cacheKey res) (alternativeCacheKeys res) None
  end.

(** Lines 132-147: the in-place update of [decryptedUser]. *)
Definition refreshUser (userDataToRefresh : option RefreshedUser) (decryptedUser : User)
    : User :=
  match userDataToRefresh with
  | None => decryptedUser
  | Some fresh =>
      {| userID := userID decryptedUser;
         recoveryEmail :=
           if is_defined (fresh_recoveryEmail fresh)
           then fresh_recoveryEmail fresh else recoveryEmail decryptedUser;
         unverifiedRecoveryEmail :=
           if is_defined (fresh_unverifiedRecoveryEmail fresh)
           then fresh_unverifiedRecoveryEmail fresh
           else unverifiedRecoveryEmail decryptedUser;
         walletAddress :=
           if truthy (fresh_walletAddress fresh)
           then fresh_walletAddress fresh else walletAddress decryptedUser;
         rootOrgID :=
           if truthy (fresh_rootOrgID fresh)
           then fresh_rootOrgID fresh else rootOrgID decryptedUser;
         publicData := fresh_publicData fresh;
         otherFields := otherFields decryptedUser |}
  end.

(** Lines 130-158: reconcile, persist, remedial actions. *)
Definition finishLogin (userDataToRefresh : option RefreshedUser) (decryptedUser : User)
    : Eff bool :=
  let decryptedUser := refreshUser userDataToRefresh decryptedUser in
  emit (SaveCurrentUserData decryptedUser) ;;
  (if isMobileApp E then emit (SendUserDataToMobileApp decryptedUser) else ret tt) ;;
  setDefaultEmailAlias ;;
  ret true.

(** The [catch] block of lines 79-95. *)
Definition onQueryError (e : QueryError) : Eff bool :=
  (if sessionCacheIsInvalid e
   then emit (ConsoleLog "Server-side session cache is invalid, cleaning local state") ;;
        setNextIDAndReload
   else emit (ConsoleError "Unexpected error while getting session cache:" e)) ;;
  ret false.

(** [tryCachedLogin], lines 57-159. *)
Definition tryCachedLogin : Eff bool :=
  if insideFrame then ret false
  else
    encryptedSessionCacheData <-
      reading GetSessionCacheForLatestUser (getSessionCacheForLatestUser E) ;;
    match encryptedSessionCacheData with
    | None => ret false
    | Some encrypted =>
        if falsy_string encryptedSessionCacheData then ret false
        else
          queried <- reading QueryGetSessionCache (fun _ => client_query E) ;;
          match queried with
          | QueryThrew e => onQueryError e
          | QueryReturned res =>
              decryptedUser <- resolveDecryptedUser encrypted res ;;
              match decryptedUser with
              | None => setNextIDAndReload ;; ret false
              | Some u => finishLogin (currentUser res) u
              end
          end
    end.

End WithEnvironment.

(** *** Reading a log *)

(** The keys handed to [decryptSessionCacheData], in call order. *)
Definition decryptionAttempts (evs : list Event) : list string :=
  omap (fun e => match e with
                 | DecryptSessionCacheData _ key => Some key
                 | _ => None
                 end) evs.

(** The arguments of the [writeSessionCacheData] calls, in call order. *)
Definition sessionCacheWrites (evs : list Event) : list (SessionCacheData * string) :=
  omap (fun e => match e with
                 | WriteSessionCacheData data key => Some (data, key)
                 | _ => None
                 end) evs.

Definition savedUsers (evs : list Event) : list User :=
  omap (fun e => match e with
                 | SaveCurrentUserData u => Some u
                 | _ => None
                 end) evs.

Definition usersSentToMobileApp (evs : list Event) : list User :=
  omap (fun e => match e with
                 | SendUserDataToMobileApp u => Some u
                 | _ => None
                 end) evs.

Definition defaultAliasInitialisations (evs : list Event) : list unit :=
  omap (fun e => match e with
                 | QueryCurrentUserEmailAliases => Some tt
                 | _ => None
                 end) evs.

(** The four steps of the overview, and the calls that make up each. *)
Inductive Step : Type :=
| SessionCacheRead
| ServerReconciliationQuery
| DecryptionFallback
| LocalStateWrite.

Definition step_of (e : Event) : option Step :=
  match e with
  | GetSessionCacheForLatestUser => Some SessionCacheRead
  | QueryGetSessionCache => Some ServerReconciliationQuery
  | DecryptSessionCacheData _ _ | LocalStorageGetItem _
  | WriteSessionCacheData _ _ | LocalStorageRemoveItem _ => Some DecryptionFallback
  | SaveCurrentUserData _ => Some LocalStateWrite
  | _ => None
  end.

Definition steps (evs : list Event) : list Step := omap step_of evs.

(** The keys looked up and the keys removed in [localStorage], in call
    order. *)
Definition storageLookups (evs : list Event) : list string :=
  omap (fun e => match e with
                 | LocalStorageGetItem key => Some key
                 | _ => None
                 end) evs.

Definition storageRemovals (evs : list Event) : list string :=
  omap (fun e => match e with
                 | LocalStorageRemoveItem key => Some key
                 | _ => None
                 end) evs.

(** The four steps in the order of the overview: the read, the query and the
    write are single calls, and the calls of the decryption step form one
    unbroken block between the query and the write. *)
Definition stepsInOrder (ss : list Step) : Prop :=
  exists (r q w : bool) (n : nat),
    ss = ((if r then [SessionCacheRead] else [])
          ++ (if q then [ServerReconciliationQuery] else [])
          ++ replicate n DecryptionFallback
          ++ (if w then [LocalStateWrite] else []))%list.

(** The decryption step run at most once: either nothing is decrypted, or
    the keys handed to [decryptSessionCacheData] are one pass over the keys
    the query returned, the primary key once and then an initial segment of
    the alternative keys, each position at most once.  Within the pass there
    is at most one storage look-up, at most one removal, and at most one
    write per decryption. *)
Definition decryptionStepOnce (queried : QueryOutcome) (evs : list Event) : Prop :=
  (decryptionAttempts evs = []
   \/ exists res tried,
        queried = QueryReturned res
        /\ decryptionAttempts evs = cacheKey res :: tried
        /\ tried `prefix_of` alternativeCacheKeys res)
  /\ (length (storageLookups evs) <= 1)%nat
  /\ (length (storageRemovals evs) <= 1)%nat
  /\ (length (sessionCacheWrites evs) <= length (decryptionAttempts evs))%nat.

(** Each step at most once and in the order of the overview, for a run whose
    server query completed as [queried]. *)
Definition onceEachInOrder (queried : QueryOutcome) (evs : list Event) : Prop :=
  stepsInOrder (steps evs) /\ decryptionStepOnce queried evs.

(** The reconciliation in the words of the claim: which fields of the
    decrypted user [before] may differ in [after], given what the server
    sent. *)
Definition reconciled (fresh : RefreshedUser) (before after : User) : Prop :=
  publicData after = fresh_publicData fresh
  /\ (fresh_recoveryEmail fresh <> VUndefined ->
      recoveryEmail after = fresh_recoveryEmail fresh)
  /\ (fresh_recoveryEmail fresh = VUndefined ->
      recoveryEmail after = recoveryEmail before)
  /\ (fresh_unverifiedRecoveryEmail fresh <> VUndefined ->
      unverifiedRecoveryEmail after = fresh_unverifiedRecoveryEmail fresh)
  /\ (fresh_unverifiedRecoveryEmail fresh = VUndefined ->
      unverifiedRecoveryEmail after = unverifiedRecoveryEmail before)
  /\ (truthy (fresh_walletAddress fresh) = true ->
      walletAddress after = fresh_walletAddress fresh)
  /\ (truthy (fresh_walletAddress fresh) = false ->
      walletAddress after = walletAddress before)
  /\ (truthy (fresh_rootOrgID fresh) = true ->
      rootOrgID after = fresh_rootOrgID fresh)
  /\ (truthy (fresh_rootOrgID fresh) = false ->
      rootOrgID after = rootOrgID before)
  /\ userID after = userID before
  /\ otherFields after = otherFields before.

(** The order of decryption attempts in the words of the claim: the primary
    key; then, only if it fails, the alternatives in the order given, up to
    and including the first one that decrypts. *)
Fixpoint untilFirstSuccess (decrypts : string -> bool) (keys : list string) : list string :=
  match keys with
  | [] => []
  | k :: rest => k :: (if decrypts k then [] else untilFirstSuccess decrypts rest)
  end.

Definition claimedAttempts (decrypts : string -> bool) (res : SessionCacheResponse)
    : list string :=
  cacheKey res
    :: (if decrypts (cacheKey res) then []
        else untilFirstSuccess decrypts (alternativeCacheKeys res)).

Definition returned {A : Type} (c : Completion A) : bool :=
  match c with
  | Returns _ => true
  | Throws => false
  end.

(** The first half of the migration in the words of the claim: whenever the
    primary key decrypts the blob and storage has no per-user-ID entry, the
    data is written under the primary key and the old-format entry is gone
    when the call ends. *)
Definition claimedPrimaryMigration (E : Environment) (ls : gmap string string) : Prop :=
  forall enc res d,
    insideFrame E = false ->
    getSessionCacheForLatestUser E ls = Some enc ->
    enc <> "" ->
    client_query E = QueryReturned res ->
    decryptSessionCacheData E enc (cacheKey res) = Returns d ->
    ls !! getSessionCacheKeyForUserID E (userID (user d)) = None ->
    (d, cacheKey res) ∈ sessionCacheWrites (events (tryCachedLogin E ls))
    /\ storage (tryCachedLogin E ls) !! storageKey_SESSION_CACHE E = None.

(** The calls that belong to the decryption step when [key] is the primary
    key: decryptions, storage look-ups and removals, and writes under
    [key]. *)
Definition resolvingCall (key : string) (e : Event) : Prop :=
  match e with
  | DecryptSessionCacheData _ _ | LocalStorageGetItem _
  | LocalStorageRemoveItem _ => True
  | WriteSessionCacheData _ k => k = key
  | _ => False
  end.

End CachedLogin.

(** ** Concrete browsers and servers *)

Module Scenarios.
Import Js WalletUtils CachedLogin.

(** Validators under which one alias belongs to every address family. *)
Definition acceptEverything : Validators :=
  {| isEthereumAddress := fun _ => true;
     isENSName := fun _ => true;
     isJunoAddress := fun _ => true;
     isICNSName := fun _ => true;
     isSolanaAddress := fun _ => true;
     Bech32Address_validate := fun _ _ => Returns tt |}.

Definition alice : User :=
  {| userID := "alice";
     recoveryEmail := VString "old@example.com";
     unverifiedRecoveryEmail := VUndefined;
     walletAddress := VString "0xdDD5e8a1ab3D";
     rootOrgID := VNull;
     publicData := VObject [("displayName", "Alice")];
     otherFields := [("username", VString "alice@skiff.com")] |}.

Definition aliceCache : SessionCacheData :=
  {| user := alice; sessionSecrets := [("privateKey", "k1")] |}.

Definition freshAlice : RefreshedUser :=
  {| fresh_recoveryEmail := VNull;
     fresh_unverifiedRecoveryEmail := VUndefined;
     fresh_walletAddress := VString "";
     fresh_rootOrgID := VString "org1";
     fresh_publicData := VObject [("displayName", "Alice B.")] |}.

Definition response : SessionCacheResponse :=
  {| cacheKey := "primary";
     alternativeCacheKeys := ["old1"; "old2"];
     currentUser := Some freshAlice |}.

Definition topWindow : Window := {| location := 1; parent_location := 1 |}.
Definition framedWindow : Window := {| location := 2; parent_location := 1 |}.

(** The blob decrypts to Alice's data under exactly the keys of [good]. *)
Definition decryptsUnder (good : list string) (encrypted key : string)
    : Completion SessionCacheData :=
  if bool_decide (key ∈ good) then Returns aliceCache else Throws.

(** A write that stores the blob under the per-user key. *)
Definition storingWrite (data : SessionCacheData) (key : string)
    (ls : gmap string string) : Completion unit * gmap string string :=
  (Returns tt, <["sessionCache:" +:+ userID (user data) := "sealed with " +:+ key]> ls).

(** A write against a full storage: [setItem] throws, nothing is stored. *)
Definition quotaExceededWrite (data : SessionCacheData) (key : string)
    (ls : gmap string string) : Completion unit * gmap string string :=
  (Throws, ls).

Definition logicErrorCode (t : LogicErrorType) : string :=
  match t with
  | NotFound => "NOT_FOUND"
  | BadRequest => "BAD_REQUEST"
  | NotAuthorized => "NOT_AUTHORIZED"
  end.

Definition browser (w : Window) (query : QueryOutcome)
    (decrypt : string -> string -> Completion SessionCacheData)
    (write : SessionCacheData -> string -> gmap string string ->
             Completion unit * gmap string string) : Environment :=
  {| window := w;
     isMobileApp := true;
     getSessionCacheForLatestUser := fun ls => ls !! "sessionCache";
     client_query := query;
     decryptSessionCacheData := decrypt;
     writeSessionCacheData := write;
     getSessionCacheKeyForUserID := fun id => "sessionCache:" +:+ id;
     storageKey_SESSION_CACHE := "sessionCache";
     clearLatestUserIDCache := fun ls => delete "latestUserID" ls;
     setNextUUID := fun ls => (true, <["latestUserID" := "bob"]> ls);
     isApolloLogicErrorType := fun e t =>
       match e with
       | Some g => String.eqb (extensionsCode g) (logicErrorCode t)
       | None => false
       end |}.

(** Old-format storage: one blob under the [SESSION_CACHE] key. *)
Definition oldFormatStorage : gmap string string :=
  {[ "sessionCache" := "blob"; "latestUserID" := "alice" ]}.

(** A page at top level whose blob the primary key decrypts. *)
Definition healthyBrowser : Environment :=
  browser topWindow (QueryReturned response) (decryptsUnder ["primary"]) storingWrite.
Definition framedBrowser : Environment :=
  browser framedWindow (QueryReturned response) (decryptsUnder ["primary"]) storingWrite.
Definition staleBrowser : Environment :=
  browser topWindow (QueryReturned response) (decryptsUnder []) storingWrite.
Definition signedOutBrowser : Environment :=
  browser topWindow (QueryThrew (ApolloError [{| extensionsCode := "NOT_AUTHORIZED" |}]))
    (decryptsUnder ["primary"]) storingWrite.
Definition fullStorageBrowser : Environment :=
  browser topWindow (QueryReturned response) (decryptsUnder ["primary"]) quotaExceededWrite.
Definition fullStorageRotatedBrowser : Environment :=
  browser topWindow (QueryReturned response) (decryptsUnder ["old1"]) quotaExceededWrite.

End Scenarios.

(** ** walletUtils.ts: Unstoppable Domains tokens *)

Module UdToken.

(** One item of a character class: a single character or a range of code
    units. *)
Inductive ClassItem : Type :=
| Single (c : ascii)
| Range (lo hi : ascii).

Definition inItem (c : ascii) (i : ClassItem) : bool :=
  match i with
  | Single d => Ascii.eqb c d
  | Range lo hi =>
      (nat_of_ascii lo <=? nat_of_ascii c)%nat && (nat_of_ascii c <=? nat_of_ascii hi)%nat
  end.

(** The regular expressions the source needs, and a little more. *)
Inductive Regex : Type :=
| Fail
| Eps
| Class (items : list ClassItem)
| Seq (r1 r2 : Regex)
| Alt (r1 r2 : Regex)
| Star (r : Regex).

(** [r+] *)
Definition Plus (r : Regex) : Regex := Seq r (Star r).

Fixpoint nullable (r : Regex) : bool :=
  match r with
  | Fail => false
  | Eps => true
  | Class _ => false
  | Seq r1 r2 => nullable r1 && nullable r2
  | Alt r1 r2 => nullable r1 || nullable r2
  | Star _ => true
  end.

(** What is left of [r] after reading the character [c]. *)
Fixpoint derive (c : ascii) (r : Regex) : Regex :=
  match r with
  | Fail => Fail
  | Eps => Fail
  | Class items => if existsb (inItem c) items then Eps else Fail
  | Seq r1 r2 =>
      if nullable r1
      then Alt (Seq (derive c r1) r2) (derive c r2)
      else Seq (derive c r1) r2
  | Alt r1 r2 => Alt (derive c r1) (derive c r2)
  | Star r1 => Seq (derive c r1) (Star r1)
  end.

Fixpoint deriveAll (s : string) (r : Regex) : Regex :=
  match s with
  | EmptyString => r
  | String c rest => deriveAll rest (derive c r)
  end.

(** [/^r$/.test(s)]: without the [m] flag the anchors are the two ends of the
    input, so the test is a match of the whole string.  A regex literal is a
    fresh object at every evaluation, so the [g] flag's [lastIndex] is 0. *)
Definition testAnchored (r : Regex) (s : string) : bool :=
  nullable (deriveAll s r).

(** The class [[a-zA-Z0-9\-_\.]] of line 118. *)
Definition udTokenClass : list ClassItem :=
  [Range "a" "z"; Range "A" "Z"; Range "0" "9"; Single "-"; Single "_"; Single "."].

(** [checkUdToken], line 118. *)
Definition checkUdToken (udToken : string) : bool :=
  testAnchored (Plus (Class udTokenClass)) udToken.

(** What a regular expression matches, as a relation. *)
Inductive Matches : Regex -> list ascii -> Prop :=
| MEps : Matches Eps []
| MClass items c : existsb (inItem c) items = true -> Matches (Class items) [c]
| MSeq r1 r2 s1 s2 : Matches r1 s1 -> Matches r2 s2 -> Matches (Seq r1 r2) (s1 ++ s2)
| MAltL r1 r2 s : Matches r1 s -> Matches (Alt r1 r2) s
| MAltR r1 r2 s : Matches r2 s -> Matches (Alt r1 r2) s
| MStarNil r : Matches (Star r) []
| MStarApp r s1 s2 : Matches r s1 -> Matches (Star r) s2 -> Matches (Star r) (s1 ++ s2).

(** The characters a token may contain, by code unit. *)
Definition udTokenChar (c : ascii) : Prop :=
  let n := nat_of_ascii c in
  (97 <= n <= 122)%nat \/ (65 <= n <= 90)%nat \/ (48 <= n <= 57)%nat
  \/ c = "-"%char \/ c = "_"%char \/ c = "."%char.

End UdToken.

(** ** walletUtils.ts: injected wallet providers *)

Module WalletProviders.
Import Js.

(** [EthProvider] is declared in [walletUtils.constants]: the members the
    switches name, and any other member it may have. *)
Inductive EthProvider : Type :=
| Coinbase
| MetaMask
| Brave
| OtherEthProvider (name : string).

(** An injected provider object: its identity and the flags the source
    reads, each already coerced to a boolean. *)
Record Wallet : Type := {
  walletId : positive;
  isCoinbaseWallet : bool;
  isMetaMask : bool;
  isBraveWallet : bool
}.

(** [window.ethereum]: the object itself and its [providers] list, which is
    absent when a single wallet is installed. *)
Record Ethereum : Type := {
  self : Wallet;
  providers : option (list Wallet)
}.

(** [getEthProvider], lines 187-214. *)
Definition getEthProvider (ethereum : option Ethereum) (providerName : EthProvider)
    : option Wallet :=
  match ethereum with
  | None => None
  | Some eth =>
      match providers eth with
      | None =>
          match providerName with
          | Coinbase => if isCoinbaseWallet (self eth) then Some (self eth) else None
          | MetaMask => if isMetaMask (self eth) then Some (self eth) else None
          | Brave => if isBraveWallet (self eth) then Some (self eth) else None
          | OtherEthProvider _ => None
          end
      | Some list =>
          match providerName with
          | Coinbase => List.find isCoinbaseWallet list
          | MetaMask => List.find isMetaMask list
          | Brave => List.find isBraveWallet list
          | OtherEthProvider _ => None
          end
      end
  end.

(** What [activateEthProvider] did: its completion and the arguments of the
    [setSelectedProvider] calls. *)
Record Activation : Type := {
  activated : Completion (option Wallet);
  selectedProviders : list Wallet
}.

(** [activateEthProvider], lines 247-254.  [provider !== ethereum] compares
    identities; calling a method of an undefined [ethereum] throws. *)
Definition activateEthProvider (ethereum : option Ethereum) (providerName : EthProvider)
    : Activation :=
  let provider := getEthProvider ethereum providerName in
  match provider with
  | None => {| activated := Returns provider; selectedProviders := [] |}
  | Some p =>
      match ethereum with
      | None => {| activated := Throws; selectedProviders := [] |}
      | Some eth =>
          if negb (Pos.eqb (walletId p) (walletId (self eth)))
          then {| activated := Returns provider; selectedProviders := [p] |}
          else {| activated := Returns provider; selectedProviders := [] |}
      end
  end.

(** The flag that marks a wallet as the provider called [providerName]. *)
Definition hasFlag (providerName : EthProvider) (w : Wallet) : bool :=
  match providerName with
  | Coinbase => isCoinbaseWallet w
  | MetaMask => isMetaMask w
  | Brave => isBraveWallet w
  | OtherEthProvider _ => false
  end.

(** The objects [getEthProvider] chooses among. *)
Definition candidates (eth : Ethereum) : list Wallet :=
  match providers eth with
  | None => [self eth]
  | Some list => list
  end.

End WalletProviders.

(** ** More browsers *)

Module MoreScenarios.
Import Js WalletUtils CachedLogin Scenarios WalletProviders.

(** Validators that recognise Solana addresses only. *)
Definition solanaOnly : Validators :=
  {| isEthereumAddress := fun _ => false;
     isENSName := fun _ => false;
     isJunoAddress := fun _ => false;
     isICNSName := fun _ => false;
     isSolanaAddress := fun _ => true;
     Bech32Address_validate := fun _ _ => Throws |}.

(** Storage after the migration: the blob under the per-user key too. *)
Definition migratedStorage : gmap string string :=
  <["sessionCache:alice" := "sealed with primary"]> oldFormatStorage.

(** A page at top level whose blob only the last alternative key decrypts. *)
Definition rotatedKeyBrowser : Environment :=
  browser topWindow (QueryReturned response) (decryptsUnder ["old2"]) storingWrite.

(** A log in which the decryption step runs twice over the keys of
    [response], none of which decrypts. *)
Definition doubledPassLog : list Event :=
  [GetSessionCacheForLatestUser; QueryGetSessionCache;
   DecryptSessionCacheData "blob" "primary"; DecryptSessionCacheData "blob" "old1";
   DecryptSessionCacheData "blob" "old2";
   DecryptSessionCacheData "blob" "primary"; DecryptSessionCacheData "blob" "old1";
   DecryptSessionCacheData "blob" "old2";
   ClearLatestUserIDCache; SetNextUUID; WindowLocationReload].

Definition metaMask : Wallet :=
  {| walletId := 1; isCoinbaseWallet := false; isMetaMask := true; isBraveWallet := false |}.
Definition coinbase : Wallet :=
  {| walletId := 2; isCoinbaseWallet := true; isMetaMask := false; isBraveWallet := false |}.

(** Two wallets installed; [window.ethereum] is the MetaMask one. *)
Definition twoWallets : Ethereum :=
  {| self := metaMask; providers := Some [metaMask; coinbase] |}.

Definition onlyMetaMask : Ethereum :=
  {| self := metaMask; providers := None |}.

End MoreScenarios.

(** * Properties *)

(** ** Strings and [slice] *)

Module JsFacts.
Import Js.

Lemma substring_chars (s : string) : forall n m : nat,
  list_ascii_of_string (substring n m s) = take m (drop n (list_ascii_of_string s)).
Proof.
  induction s as [|c s IH]; intros n m.
  - destruct n, m; reflexivity.
  - destruct n as [|n].
    + destruct m as [|m]; [reflexivity|].
      cbn. f_equal. apply (IH 0%nat m).
    + cbn. apply IH.
Qed.

Lemma length_chars (s : string) :
  length (list_ascii_of_string s) = String.length s.
Proof. induction s as [|c s IH]; cbn; congruence. Qed.

Lemma string_chars_inj (s t : string) :
  list_ascii_of_string s = list_ascii_of_string t -> s = t.
Proof.
  intros H.
  rewrite <- (string_of_list_ascii_of_string s), <- (string_of_list_ascii_of_string t).
  now rewrite H.
Qed.

(** [s.slice(0, n)] keeps the first [n] characters. *)
Lemma slice_prefix (s : string) (n : nat) :
  slice s 0 (Some (Z.of_nat n)) =
  string_of_list_ascii (take n (list_ascii_of_string s)).
Proof.
  apply string_chars_inj.
  rewrite list_ascii_of_string_of_list_ascii.
  unfold slice, relative_index. rewrite substring_chars.
  change (0 <? 0) with false. cbn iota.
  assert (Hn : (Z.of_nat n <? 0) = false) by (apply Z.ltb_ge; lia).
  rewrite Hn.
  set (len := String.length s).
  rewrite (Z.min_l 0 (Z.of_nat len)) by lia.
  change (Z.to_nat 0) with 0%nat. rewrite drop_0.
  destruct (decide (n <= len)%nat) as [Hle|Hgt].
  - rewrite Z.min_l by lia. rewrite Z.sub_0_r, Nat2Z.id. reflexivity.
  - rewrite Z.min_r by lia. rewrite Z.sub_0_r, Nat2Z.id.
    rewrite !take_ge; [reflexivity| |]; rewrite length_chars; fold len; lia.
Qed.

(** [s.slice(-n)], [n > 0], keeps the last [n] characters. *)
Lemma slice_suffix (s : string) (n : nat) :
  (0 < n)%nat ->
  slice s (- Z.of_nat n) None =
  string_of_list_ascii
    (drop (length (list_ascii_of_string s) - n) (list_ascii_of_string s)).
Proof.
  intros Hn. apply string_chars_inj.
  rewrite list_ascii_of_string_of_list_ascii.
  unfold slice, relative_index. rewrite substring_chars.
  assert (Hneg : (- Z.of_nat n <? 0) = true) by (apply Z.ltb_lt; lia).
  rewrite Hneg, length_chars.
  set (len := String.length s).
  replace (Z.to_nat (Z.max (Z.of_nat len + - Z.of_nat n) 0)) with (len - n)%nat by lia.
  apply take_ge. rewrite length_drop, length_chars. fold len. lia.
Qed.

End JsFacts.

(** ** walletUtils.ts *)

Module WalletUtilsFacts.
Import Js JsFacts WalletUtils Scenarios.

Lemma falsy_string_nonempty (s : string) :
  s <> "" -> falsy_string (Some s) = false.
Proof. destruct s; [congruence | reflexivity]. Qed.

(** C9.  [abbreviateWalletAddress] returns the empty string for an undefined
    or an empty address, whatever the other arguments; for a non-empty
    address and default parameters it returns the first 5 characters, then
    "...", then the last 4 characters; and [createAbbreviatedWalletEmail w d]
    is [abbreviateWalletAddress w] followed by "@" and [d]. *)
Theorem abbreviateWalletAddress_spec :
  (forall startChars endChars,
      abbreviateWalletAddress None startChars endChars = ""
      /\ abbreviateWalletAddress (Some "") startChars endChars = "")
  /\ (forall w : string, w <> "" ->
        abbreviateWalletAddress (Some w) None None
        = firstChars 5 w +:+ "..." +:+ lastChars 4 w)
  /\ (forall w d : string,
        createAbbreviatedWalletEmail w d
        = abbreviateWalletAddress (Some w) None None +:+ "@" +:+ d).
Proof.
  split; [|split].
  - intros sc ec. split; reflexivity.
  - intros w Hw. unfold abbreviateWalletAddress.
    rewrite (falsy_string_nonempty w Hw). cbn [nullish].
    change (2 + 3) with (Z.of_nat 5).
    change (Z.opp 4) with (Z.opp (Z.of_nat 4)).
    rewrite slice_prefix, slice_suffix by lia. reflexivity.
  - intros w d. reflexivity.
Qed.

Lemma abbreviateWalletAddress_spec_witness :
  "0xdDD5e8a1ab3D" <> ""
  /\ abbreviateWalletAddress (Some "0xdDD5e8a1ab3D") None None
     = firstChars 5 "0xdDD5e8a1ab3D" +:+ "..." +:+ lastChars 4 "0xdDD5e8a1ab3D".
Proof.
  split; [discriminate|].
  apply (proj1 (proj2 abbreviateWalletAddress_spec)). discriminate.
Defined.

Example abbreviateWalletAddress_documented :
  abbreviateWalletAddress (Some "0xdDD5e8a1ab3D") None None = "0xdDD...ab3D"
  /\ abbreviateWalletAddress (Some "abc") None None = "abc...abc".
Proof. split; reflexivity. Qed.

Section WithValidators.
Context (V : Validators).

Lemma isCosmosHubAddress_returns (a : option string) :
  isCosmosHubAddress V a
  = Returns (match a with
             | None => false
             | Some s =>
                 negb (falsy_string a)
                 && match Bech32Address_validate V s "cosmos" with
                    | Returns _ => true
                    | Throws => false
                    end
             end).
Proof.
  destruct a as [s|]; [|reflexivity].
  unfold isCosmosHubAddress.
  destruct (falsy_string (Some s)); [reflexivity|].
  destruct (Bech32Address_validate V s "cosmos"); reflexivity.
Qed.

(** C10.  [isCosmosHubAddress] returns a boolean on every input and never
    throws; the boolean is [false] when the input is falsy or when the bech32
    validation with prefix "cosmos" throws.  [getWalletIcon] returns
    undefined for an undefined or empty alias; a non-empty alias that passes an
    Ethereum check gets the Ethereum icon whatever the other checks say, and
    one that fails both Ethereum checks and passes a Cosmos check gets the
    Atom icon whatever the Solana check says. *)
Theorem wallet_checks_total_and_prioritised :
  (forall a : option string,
      exists b : bool,
        isCosmosHubAddress V a = Returns b
        /\ (falsy_string a = true -> b = false)
        /\ (forall s, a = Some s ->
              Bech32Address_validate V s "cosmos" = Throws -> b = false))
  /\ getWalletIcon V None = Returns None
  /\ getWalletIcon V (Some "") = Returns None
  /\ (forall alias : string, alias <> "" ->
        isEthereumAddress V alias || isENSName V alias = true ->
        getWalletIcon V (Some alias) = Returns (Some Ethereum))
  /\ (forall alias : string, alias <> "" ->
        isEthereumAddress V alias || isENSName V alias = false ->
        isCosmosHubAddress V (Some alias) = Returns true
        \/ isJunoAddress V alias = true \/ isICNSName V alias = true ->
        getWalletIcon V (Some alias) = Returns (Some Atom)).
Proof.
  split; [|split; [|split; [|split]]].
  - intros a. eexists. split; [apply isCosmosHubAddress_returns|]. split.
    + destruct a as [s|]; [|reflexivity]. intros ->. reflexivity.
    + intros s -> Hthrow. rewrite Hthrow. apply andb_false_r.
  - reflexivity.
  - reflexivity.
  - intros alias Hne Heth. unfold getWalletIcon.
    rewrite (falsy_string_nonempty alias Hne), Heth. reflexivity.
  - intros alias Hne Heth Hcosmos. unfold getWalletIcon.
    rewrite (falsy_string_nonempty alias Hne), Heth.
    destruct Hcosmos as [Hc|[Hj|Hi]].
    + rewrite Hc. reflexivity.
    + rewrite isCosmosHubAddress_returns, Hj, orb_true_r. reflexivity.
    + rewrite isCosmosHubAddress_returns, Hi, !orb_true_r. reflexivity.
Qed.

End WithValidators.

Lemma wallet_checks_total_and_prioritised_witness :
  "vitalik.eth" <> ""
  /\ isEthereumAddress acceptEverything "vitalik.eth"
     || isENSName acceptEverything "vitalik.eth" = true
  /\ getWalletIcon acceptEverything (Some "vitalik.eth") = Returns (Some Ethereum).
Proof.
  split; [discriminate|]. split; [reflexivity|].
  apply (proj1 (proj2 (proj2 (proj2 (wallet_checks_total_and_prioritised acceptEverything)))));
    [discriminate | reflexivity].
Defined.

End WalletUtilsFacts.

(** ** The cached-login module *)

Module CachedLoginFacts.
Import Js CachedLogin Scenarios.

(** *** Sequencing *)

Lemma bind_run {A B : Type} (m : Eff A) (k : A -> Eff B) (ls : gmap string string) :
  bind m k ls = after (events (m ls)) (k (result (m ls)) (storage (m ls))).
Proof. reflexivity. Qed.

Lemma bind_reading {A B : Type} (e : Event) (f : gmap string string -> A)
    (k : A -> Eff B) (ls : gmap string string) :
  bind (reading e f) k ls = after [e] (k (f ls) ls).
Proof. reflexivity. Qed.

Lemma bind_updating {A B : Type} (e : Event)
    (f : gmap string string -> A * gmap string string)
    (k : A -> Eff B) (ls : gmap string string) :
  bind (updating e f) k ls = after [e] (k (f ls).1 (f ls).2).
Proof. reflexivity. Qed.

Lemma bind_emit {B : Type} (e : Event) (k : unit -> Eff B) (ls : gmap string string) :
  bind (emit e) k ls = after [e] (k tt ls).
Proof. reflexivity. Qed.

Lemma after_after {A : Type} (evs evs' : list Event) (r : Run A) :
  after evs (after evs' r) = after (evs ++ evs') r.
Proof. unfold after. cbn. by rewrite app_assoc. Qed.

Lemma after_run {A : Type} (evs : list Event) (a : A) ls evs' :
  after evs (MkRun a ls evs') = MkRun a ls (evs ++ evs').
Proof. reflexivity. Qed.

Lemma events_after {A : Type} (evs : list Event) (r : Run A) :
  events (after evs r) = evs ++ events r.
Proof. reflexivity. Qed.

Lemma result_after {A : Type} (evs : list Event) (r : Run A) :
  result (after evs r) = result r.
Proof. reflexivity. Qed.

Lemma storage_after {A : Type} (evs : list Event) (r : Run A) :
  storage (after evs r) = storage r.
Proof. reflexivity. Qed.

(** What a log made of calls of the decryption step looks like through each
    projection. *)
Lemma resolving_log (key : string) (evs : list Event) :
  Forall (resolvingCall key) evs ->
  steps evs = replicate (length evs) DecryptionFallback
  /\ savedUsers evs = []
  /\ usersSentToMobileApp evs = []
  /\ defaultAliasInitialisations evs = []
  /\ Forall (fun w => w.2 = key) (sessionCacheWrites evs).
Proof.
  induction 1 as [|e evs He _ (IH1 & IH2 & IH3 & IH4 & IH5)].
  - repeat split; constructor.
  - unfold steps, savedUsers, usersSentToMobileApp, defaultAliasInitialisations,
      sessionCacheWrites in *.
    destruct e; cbn in He; try contradiction; cbn;
      rewrite ?IH1, ?IH2, ?IH3, ?IH4; repeat split; auto.
Qed.

Section Runs.
Context (E : Environment).

Lemma setNextIDAndReload_run (ls : gmap string string) :
  setNextIDAndReload E ls
  = let next := setNextUUID E (clearLatestUserIDCache E ls) in
    MkRun tt next.2
      ([ClearLatestUserIDCache; SetNextUUID]
       ++ (if next.1 then [WindowLocationReload] else [])).
Proof.
  unfold setNextIDAndReload. rewrite !bind_updating. cbn [fst snd].
  destruct (setNextUUID E (clearLatestUserIDCache E ls)) as [[] ls']; reflexivity.
Qed.

Lemma finishLogin_run (fresh : option RefreshedUser) (u : User) (ls : gmap string string) :
  finishLogin E fresh u ls
  = let merged := refreshUser fresh u in
    MkRun true ls
      ([SaveCurrentUserData merged]
       ++ (if isMobileApp E then [SendUserDataToMobileApp merged] else [])
       ++ [QueryCurrentUserEmailAliases]).
Proof.
  unfold finishLogin, setDefaultEmailAlias. rewrite bind_emit, bind_run.
  destruct (isMobileApp E); reflexivity.
Qed.

Lemma tryCachedLogin_run (ls : gmap string string) (enc : string) (res : SessionCacheResponse) :
  insideFrame E = false ->
  getSessionCacheForLatestUser E ls = Some enc ->
  enc <> "" ->
  client_query E = QueryReturned res ->
  tryCachedLogin E ls
  = let r := resolveDecryptedUser E enc res ls in
    match result r with
    | None =>
        let next := setNextUUID E (clearLatestUserIDCache E (storage r)) in
        MkRun false next.2
          ([GetSessionCacheForLatestUser; QueryGetSessionCache] ++ events r
           ++ [ClearLatestUserIDCache; SetNextUUID]
           ++ (if next.1 then [WindowLocationReload] else []))
    | Some u =>
        let merged := refreshUser (currentUser res) u in
        MkRun true (storage r)
          ([GetSessionCacheForLatestUser; QueryGetSessionCache] ++ events r
           ++ [SaveCurrentUserData merged]
           ++ (if isMobileApp E then [SendUserDataToMobileApp merged] else [])
           ++ [QueryCurrentUserEmailAliases])
    end.
Proof.
  intros Hframe Hblob Hne Hq.
  unfold tryCachedLogin. rewrite Hframe, bind_reading, Hblob.
  destruct enc as [|c enc']; [congruence|]. cbn [falsy_string].
  rewrite bind_reading, Hq, bind_run.
  destruct (result (resolveDecryptedUser E (String c enc') res ls)) as [u|].
  - rewrite finishLogin_run. reflexivity.
  - rewrite bind_run, setNextIDAndReload_run.
    unfold after, ret. cbn. by rewrite app_nil_r.
Qed.

(** The first [try] block, case by case. *)
Lemma tryPrimaryKey_throws (enc key : string) (ls : gmap string string) :
  decryptSessionCacheData E enc key = Throws ->
  tryPrimaryKey E enc key ls = MkRun None ls [DecryptSessionCacheData enc key].
Proof. intros H. unfold tryPrimaryKey. rewrite bind_reading, H. reflexivity. Qed.

Lemma tryPrimaryKey_returns (enc key : string) (d : SessionCacheData)
    (ls : gmap string string) :
  decryptSessionCacheData E enc key = Returns d ->
  tryPrimaryKey E enc key ls
  = let perUser := getSessionCacheKeyForUserID E (userID (user d)) in
    match ls !! perUser with
    | Some _ =>
        MkRun (Some (user d)) ls
          [DecryptSessionCacheData enc key; LocalStorageGetItem perUser]
    | None =>
        let w := writeSessionCacheData E d key ls in
        if returned w.1
        then MkRun (Some (user d)) (delete (storageKey_SESSION_CACHE E) w.2)
               [DecryptSessionCacheData enc key; LocalStorageGetItem perUser;
                WriteSessionCacheData d key;
                LocalStorageRemoveItem (storageKey_SESSION_CACHE E)]
        else MkRun (Some (user d)) w.2
               [DecryptSessionCacheData enc key; LocalStorageGetItem perUser;
                WriteSessionCacheData d key]
    end.
Proof.
  intros H. unfold tryPrimaryKey, localStorage_getItem, localStorage_removeItem.
  rewrite bind_reading, H, bind_reading. cbn zeta.
  destruct (ls !! _); [reflexivity|].
  rewrite bind_updating.
  destruct (writeSessionCacheData E d key ls) as [[[]|] ls']; reflexivity.
Qed.

(** The loop, one iteration at a time. *)
Lemma tryAlternativeKeys_throws (enc key k : string) (rest : list string)
    (acc : option User) (ls : gmap string string) :
  decryptSessionCacheData E enc k = Throws ->
  tryAlternativeKeys E enc key (k :: rest) acc ls
  = after [DecryptSessionCacheData enc k] (tryAlternativeKeys E enc key rest acc ls).
Proof. intros H. cbn [tryAlternativeKeys]. rewrite bind_reading, H. reflexivity. Qed.

Lemma tryAlternativeKeys_returns (enc key k : string) (rest : list string)
    (acc : option User) (d : SessionCacheData) (ls : gmap string string) :
  decryptSessionCacheData E enc k = Returns d ->
  tryAlternativeKeys E enc key (k :: rest) acc ls
  = let w := writeSessionCacheData E d key ls in
    if returned w.1
    then MkRun (Some (user d)) w.2
           [DecryptSessionCacheData enc k; WriteSessionCacheData d key]
    else after [DecryptSessionCacheData enc k; WriteSessionCacheData d key]
           (tryAlternativeKeys E enc key rest (Some (user d)) w.2).
Proof.
  intros H. cbn [tryAlternativeKeys]. rewrite bind_reading, H, bind_updating.
  destruct (writeSessionCacheData E d key ls) as [[[]|] ls']; reflexivity.
Qed.

(** Keys that all fail are each tried once, in order, and change nothing. *)
Lemma tryAlternativeKeys_failing_prefix (enc key : string) (failing rest : list string)
    (acc : option User) (ls : gmap string string) :
  Forall (fun k => decryptSessionCacheData E enc k = Throws) failing ->
  tryAlternativeKeys E enc key (failing ++ rest) acc ls
  = after (DecryptSessionCacheData enc <$> failing)
      (tryAlternativeKeys E enc key rest acc ls).
Proof.
  induction 1 as [|k failing Hk _ IH].
  - cbn. by destruct (tryAlternativeKeys E enc key rest acc ls).
  - rewrite <- app_comm_cons, (tryAlternativeKeys_throws _ _ _ _ _ _ Hk), IH.
    by rewrite after_after.
Qed.

Lemma tryAlternativeKeys_all_fail (enc key : string) (alternatives : list string)
    (acc : option User) (ls : gmap string string) :
  Forall (fun k => decryptSessionCacheData E enc k = Throws) alternatives ->
  tryAlternativeKeys E enc key alternatives acc ls
  = MkRun acc ls (DecryptSessionCacheData enc <$> alternatives).
Proof.
  intros H.
  rewrite <- (app_nil_r alternatives) at 1.
  rewrite (tryAlternativeKeys_failing_prefix _ _ _ _ _ _ H).
  cbn. unfold after, ret. cbn. by rewrite app_nil_r.
Qed.


Lemma resolveDecryptedUser_primary (enc : string) (res : SessionCacheResponse)
    (d : SessionCacheData) (ls : gmap string string) :
  decryptSessionCacheData E enc (cacheKey res) = Returns d ->
  resolveDecryptedUser E enc res ls = tryPrimaryKey E enc (cacheKey res) ls.
Proof.
  intros H. unfold resolveDecryptedUser. rewrite bind_run.
  rewrite (tryPrimaryKey_returns _ _ _ _ H). cbn zeta.
  destruct (ls !! _); [unfold after, ret; cbn; by rewrite ?app_nil_r|].
  destruct (returned _); unfold after, ret; cbn; by rewrite ?app_nil_r.
Qed.

Lemma resolveDecryptedUser_fallback (enc : string) (res : SessionCacheResponse)
    (ls : gmap string string) :
  decryptSessionCacheData E enc (cacheKey res) = Throws ->
  resolveDecryptedUser E enc res ls
  = after [DecryptSessionCacheData enc (cacheKey res)]
      (tryAlternativeKeys E enc (cacheKey res) (alternativeCacheKeys res) None ls).
Proof.
  intros H. unfold resolveDecryptedUser.
  rewrite bind_run, (tryPrimaryKey_throws _ _ _ H). reflexivity.
Qed.

Lemma tryAlternativeKeys_resolving (enc key : string) (alternatives : list string) :
  forall (acc : option User) (ls : gmap string string),
    Forall (resolvingCall key) (events (tryAlternativeKeys E enc key alternatives acc ls)).
Proof.
  induction alternatives as [|k rest IH]; intros acc ls.
  - constructor.
  - destruct (decryptSessionCacheData E enc k) as [d|] eqn:Hk.
    + rewrite (tryAlternativeKeys_returns _ _ _ _ _ _ _ Hk). cbn zeta.
      destruct (returned _).
      * repeat constructor.
      * rewrite events_after. apply Forall_app. split; [repeat constructor|apply IH].
    + rewrite (tryAlternativeKeys_throws _ _ _ _ _ _ Hk), events_after.
      apply Forall_app. split; [repeat constructor|apply IH].
Qed.

Lemma tryPrimaryKey_resolving (enc key : string) (ls : gmap string string) :
  Forall (resolvingCall key) (events (tryPrimaryKey E enc key ls)).
Proof.
  destruct (decryptSessionCacheData E enc key) as [d|] eqn:Hk.
  - rewrite (tryPrimaryKey_returns _ _ _ _ Hk). cbn zeta.
    destruct (ls !! _); [repeat constructor|].
    destruct (returned _); repeat constructor.
  - rewrite (tryPrimaryKey_throws _ _ _ Hk). repeat constructor.
Qed.

Lemma resolveDecryptedUser_resolving (enc : string) (res : SessionCacheResponse)
    (ls : gmap string string) :
  Forall (resolvingCall (cacheKey res)) (events (resolveDecryptedUser E enc res ls)).
Proof.
  destruct (decryptSessionCacheData E enc (cacheKey res)) as [d|] eqn:Hk.
  - rewrite (resolveDecryptedUser_primary _ _ _ _ Hk). apply tryPrimaryKey_resolving.
  - rewrite (resolveDecryptedUser_fallback _ _ _ Hk), events_after.
    apply Forall_app. split; [repeat constructor|apply tryAlternativeKeys_resolving].
Qed.

(** Where the user that the decryption step returns comes from. *)
Lemma tryAlternativeKeys_result (enc key : string) (alternatives : list string) (u : User) :
  forall (acc : option User) (ls : gmap string string),
    result (tryAlternativeKeys E enc key alternatives acc ls) = Some u ->
    acc = Some u
    \/ exists k d, k ∈ alternatives
                 /\ decryptSessionCacheData E enc k = Returns d /\ u = user d.
Proof.
  induction alternatives as [|k rest IH]; intros acc ls Hres.
  - left. exact Hres.
  - destruct (decryptSessionCacheData E enc k) as [d|] eqn:Hk.
    + rewrite (tryAlternativeKeys_returns _ _ _ _ _ _ _ Hk) in Hres. cbn zeta in Hres.
      destruct (returned _).
      * right. exists k, d. cbn in Hres. split; [left|]. split; congruence.
      * rewrite result_after in Hres.
        destruct (IH _ _ Hres) as [Hacc|(k' & d' & Hin & Hd & Hu)].
        -- right. exists k, d. split; [left|]. split; congruence.
        -- right. exists k', d'. split; [by right|]. by split.
    + rewrite (tryAlternativeKeys_throws _ _ _ _ _ _ Hk), result_after in Hres.
      destruct (IH _ _ Hres) as [Hacc|(k' & d' & Hin & Hd & Hu)]; [by left|].
      right. exists k', d'. split; [by right|]. by split.
Qed.

Lemma resolveDecryptedUser_result (enc : string) (res : SessionCacheResponse)
    (ls : gmap string string) (u : User) :
  result (resolveDecryptedUser E enc res ls) = Some u ->
  exists k d, k ∈ cacheKey res :: alternativeCacheKeys res
              /\ decryptSessionCacheData E enc k = Returns d /\ u = user d.
Proof.
  intros Hres.
  destruct (decryptSessionCacheData E enc (cacheKey res)) as [d|] eqn:Hk.
  - exists (cacheKey res), d. split; [left|]. split; [done|].
    rewrite (resolveDecryptedUser_primary _ _ _ _ Hk),
      (tryPrimaryKey_returns _ _ _ _ Hk) in Hres. cbn zeta in Hres.
    destruct (ls !! _); [cbn in Hres; congruence|].
    destruct (returned _); cbn in Hres; congruence.
  - rewrite (resolveDecryptedUser_fallback _ _ _ Hk), result_after in Hres.
    destruct (tryAlternativeKeys_result _ _ _ _ _ _ Hres)
      as [Hacc|(k' & d' & Hin & Hd & Hu)]; [discriminate|].
    exists k', d'. split; [by right|]. by split.
Qed.


(** The remaining paths of [tryCachedLogin]. *)
Lemma tryCachedLogin_in_frame (ls : gmap string string) :
  insideFrame E = true -> tryCachedLogin E ls = MkRun false ls [].
Proof. intros H. unfold tryCachedLogin. by rewrite H. Qed.

Lemma tryCachedLogin_no_blob (ls : gmap string string) :
  insideFrame E = false ->
  falsy_string (getSessionCacheForLatestUser E ls) = true ->
  tryCachedLogin E ls = MkRun false ls [GetSessionCacheForLatestUser].
Proof.
  intros Hframe Hblob. unfold tryCachedLogin. rewrite Hframe, bind_reading.
  destruct (getSessionCacheForLatestUser E ls) as [enc|]; [|reflexivity].
  rewrite Hblob. reflexivity.
Qed.

Lemma onQueryError_run (e : QueryError) (ls : gmap string string) :
  onQueryError E e ls
  = if sessionCacheIsInvalid E e
    then let next := setNextUUID E (clearLatestUserIDCache E ls) in
         MkRun false next.2
           ([ConsoleLog "Server-side session cache is invalid, cleaning local state";
             ClearLatestUserIDCache; SetNextUUID]
            ++ (if next.1 then [WindowLocationReload] else []))
    else MkRun false ls
           [ConsoleError "Unexpected error while getting session cache:" e].
Proof.
  unfold onQueryError. rewrite bind_run.
  destruct (sessionCacheIsInvalid E e).
  - rewrite bind_emit, setNextIDAndReload_run.
    unfold after, ret. cbn. by rewrite app_nil_r.
  - reflexivity.
Qed.

Lemma tryCachedLogin_query_threw (ls : gmap string string) (enc : string) (e : QueryError) :
  insideFrame E = false ->
  getSessionCacheForLatestUser E ls = Some enc ->
  enc <> "" ->
  client_query E = QueryThrew e ->
  tryCachedLogin E ls
  = after [GetSessionCacheForLatestUser; QueryGetSessionCache] (onQueryError E e ls).
Proof.
  intros Hframe Hblob Hne Hq.
  unfold tryCachedLogin. rewrite Hframe, bind_reading, Hblob.
  destruct enc as [|c enc']; [congruence|]. cbn [falsy_string].
  rewrite bind_reading, Hq. by rewrite after_after.
Qed.

(** The order of the decryption attempts.  Whatever the writes do, the
    primary key comes first and the alternatives follow in the order given,
    and only when the primary key failed. *)
Lemma tryAlternativeKeys_attempts_prefix (enc key : string) (alternatives : list string) :
  forall (acc : option User) (ls : gmap string string),
    decryptionAttempts (events (tryAlternativeKeys E enc key alternatives acc ls))
    `prefix_of` alternatives.
Proof.
  induction alternatives as [|k rest IH]; intros acc ls.
  - by exists [].
  - destruct (decryptSessionCacheData E enc k) as [d|] eqn:Hk.
    + rewrite (tryAlternativeKeys_returns _ _ _ _ _ _ _ Hk). cbn zeta.
      destruct (returned _).
      * cbn. by exists rest.
      * rewrite events_after. cbn. apply prefix_cons, IH.
    + rewrite (tryAlternativeKeys_throws _ _ _ _ _ _ Hk), events_after.
      cbn. apply prefix_cons, IH.
Qed.

Lemma resolveDecryptedUser_attempts (enc : string) (res : SessionCacheResponse)
    (ls : gmap string string) :
  exists tried,
    decryptionAttempts (events (resolveDecryptedUser E enc res ls)) = cacheKey res :: tried
    /\ tried `prefix_of` alternativeCacheKeys res
    /\ (returned (decryptSessionCacheData E enc (cacheKey res)) = true -> tried = []).
Proof.
  destruct (decryptSessionCacheData E enc (cacheKey res)) as [d|] eqn:Hk.
  - exists []. split; [|split; [by eexists|done]].
    rewrite (resolveDecryptedUser_primary _ _ _ _ Hk),
      (tryPrimaryKey_returns _ _ _ _ Hk). cbn zeta.
    destruct (ls !! _); [reflexivity|]. destruct (returned _); reflexivity.
  - eexists. split; [|split; [|discriminate]].
    + rewrite (resolveDecryptedUser_fallback _ _ _ Hk), events_after. reflexivity.
    + apply tryAlternativeKeys_attempts_prefix.
Qed.

(** When no write throws the attempts are exactly the claimed ones. *)
Lemma tryAlternativeKeys_attempts_when_writes_return
    (enc key : string) (alternatives : list string) :
  (forall d ls, returned (writeSessionCacheData E d key ls).1 = true) ->
  forall (acc : option User) (ls : gmap string string),
    decryptionAttempts (events (tryAlternativeKeys E enc key alternatives acc ls))
    = untilFirstSuccess (fun k => returned (decryptSessionCacheData E enc k)) alternatives.
Proof.
  intros Hw. induction alternatives as [|k rest IH]; intros acc ls; [reflexivity|].
  cbn [untilFirstSuccess].
  destruct (decryptSessionCacheData E enc k) as [d|] eqn:Hk.
  - rewrite (tryAlternativeKeys_returns _ _ _ _ _ _ _ Hk). cbn zeta.
    rewrite Hw. reflexivity.
  - rewrite (tryAlternativeKeys_throws _ _ _ _ _ _ Hk), events_after.
    cbn. f_equal. apply IH.
Qed.

Lemma resolveDecryptedUser_attempts_when_writes_return
    (enc : string) (res : SessionCacheResponse) (ls : gmap string string) :
  (forall d ls, returned (writeSessionCacheData E d (cacheKey res) ls).1 = true) ->
  decryptionAttempts (events (resolveDecryptedUser E enc res ls))
  = claimedAttempts (fun k => returned (decryptSessionCacheData E enc k)) res.
Proof.
  intros Hw. unfold claimedAttempts.
  destruct (decryptSessionCacheData E enc (cacheKey res)) as [d|] eqn:Hk.
  - rewrite (resolveDecryptedUser_primary _ _ _ _ Hk),
      (tryPrimaryKey_returns _ _ _ _ Hk). cbn zeta.
    destruct (ls !! _); [reflexivity|]. destruct (returned _); reflexivity.
  - rewrite (resolveDecryptedUser_fallback _ _ _ Hk), events_after. cbn. f_equal.
    by apply tryAlternativeKeys_attempts_when_writes_return.
Qed.

(** The calls around the decryption step decrypt nothing, so with writes that
    return the whole run tries the keys in the claimed order. *)
Lemma tryCachedLogin_attempts (ls : gmap string string) (enc : string)
    (res : SessionCacheResponse) :
  insideFrame E = false ->
  getSessionCacheForLatestUser E ls = Some enc ->
  enc <> "" ->
  client_query E = QueryReturned res ->
  decryptionAttempts (events (tryCachedLogin E ls))
  = decryptionAttempts (events (resolveDecryptedUser E enc res ls)).
Proof.
  intros Hframe Hblob Hne Hq.
  rewrite (tryCachedLogin_run ls enc res Hframe Hblob Hne Hq). cbn zeta.
  unfold decryptionAttempts.
  destruct (result (resolveDecryptedUser E enc res ls)); cbn [events];
    rewrite !omap_app; cbn.
  - destruct (isMobileApp E); cbn; by rewrite app_nil_r.
  - destruct (setNextUUID E _).1; cbn; by rewrite app_nil_r.
Qed.

Lemma tryCachedLogin_attempts_when_writes_return (ls : gmap string string)
    (enc : string) (res : SessionCacheResponse) :
  insideFrame E = false ->
  getSessionCacheForLatestUser E ls = Some enc ->
  enc <> "" ->
  client_query E = QueryReturned res ->
  (forall d ls', returned (writeSessionCacheData E d (cacheKey res) ls').1 = true) ->
  decryptionAttempts (events (tryCachedLogin E ls))
  = claimedAttempts (fun k => returned (decryptSessionCacheData E enc k)) res.
Proof.
  intros Hframe Hblob Hne Hq Hw.
  rewrite (tryCachedLogin_attempts ls enc res Hframe Hblob Hne Hq).
  by apply resolveDecryptedUser_attempts_when_writes_return.
Qed.

End Runs.

Lemma insideFrame_spec (E : Environment) :
  insideFrame E = true <-> location (window E) <> parent_location (window E).
Proof.
  unfold insideFrame. rewrite negb_true_iff. apply Pos.eqb_neq.
Qed.

Lemma writes_of_decryptions (enc : string) (keys : list string) :
  sessionCacheWrites (DecryptSessionCacheData enc <$> keys) = [].
Proof. induction keys as [|k keys IH]; [reflexivity|exact IH]. Qed.

Lemma saves_of_decryptions (enc : string) (keys : list string) :
  savedUsers (DecryptSessionCacheData enc <$> keys) = [].
Proof. induction keys as [|k keys IH]; [reflexivity|exact IH]. Qed.

Lemma refreshUser_reconciled (fresh : RefreshedUser) (u : User) :
  reconciled fresh u (refreshUser (Some fresh) u).
Proof.
  unfold reconciled. cbn.
  destruct fresh as [re ure wa ro pd]. cbn.
  repeat split; try reflexivity.
  - destruct re; cbn; congruence.
  - intros ->. reflexivity.
  - destruct ure; cbn; congruence.
  - intros ->. reflexivity.
  - intros ->. reflexivity.
  - intros ->. reflexivity.
  - intros ->. reflexivity.
  - intros ->. reflexivity.
Qed.

Section Claims.
Context (E : Environment).

(** C8.  Inside a frame, that is when [window.location] and
    [window.parent.location] differ, [tryCachedLogin] returns false at once:
    no call is made (no storage read, no server query) and local storage is
    left as it was. *)
Theorem tryCachedLogin_skipped_inside_frame (ls : gmap string string) :
  location (window E) <> parent_location (window E) ->
  tryCachedLogin E ls = MkRun false ls [].
Proof. intros H. apply tryCachedLogin_in_frame, insideFrame_spec, H. Qed.

(** C5.  When the server query succeeds and neither the primary key nor any
    alternative key decrypts the blob, every key is tried once, the
    latest-user-ID cache is cleared, the page is reloaded exactly when
    [setNextUUID] set a next user, the function returns false, and no user
    data was saved and no session cache written. *)
Theorem tryCachedLogin_no_key_decrypts (ls : gmap string string) (enc : string)
    (res : SessionCacheResponse) :
  insideFrame E = false ->
  getSessionCacheForLatestUser E ls = Some enc ->
  enc <> "" ->
  client_query E = QueryReturned res ->
  decryptSessionCacheData E enc (cacheKey res) = Throws ->
  Forall (fun k => decryptSessionCacheData E enc k = Throws) (alternativeCacheKeys res) ->
  let next := setNextUUID E (clearLatestUserIDCache E ls) in
  tryCachedLogin E ls
  = MkRun false next.2
      ([GetSessionCacheForLatestUser; QueryGetSessionCache;
        DecryptSessionCacheData enc (cacheKey res)]
       ++ (DecryptSessionCacheData enc <$> alternativeCacheKeys res)
       ++ [ClearLatestUserIDCache; SetNextUUID]
       ++ (if next.1 then [WindowLocationReload] else []))
  /\ savedUsers (events (tryCachedLogin E ls)) = []
  /\ sessionCacheWrites (events (tryCachedLogin E ls)) = [].
Proof.
  intros Hframe Hblob Hne Hq Hprimary Halt next.
  assert (Hrun : tryCachedLogin E ls
    = MkRun false next.2
        ([GetSessionCacheForLatestUser; QueryGetSessionCache;
          DecryptSessionCacheData enc (cacheKey res)]
         ++ (DecryptSessionCacheData enc <$> alternativeCacheKeys res)
         ++ [ClearLatestUserIDCache; SetNextUUID]
         ++ (if next.1 then [WindowLocationReload] else []))).
  { rewrite (tryCachedLogin_run E ls enc res Hframe Hblob Hne Hq).
    rewrite (resolveDecryptedUser_fallback E _ _ _ Hprimary),
      (tryAlternativeKeys_all_fail E _ _ _ _ _ Halt).
    reflexivity. }
  split; [exact Hrun|]. rewrite Hrun. cbn [events].
  unfold savedUsers, sessionCacheWrites. rewrite !omap_app.
  fold (savedUsers (DecryptSessionCacheData enc <$> alternativeCacheKeys res)).
  fold (sessionCacheWrites (DecryptSessionCacheData enc <$> alternativeCacheKeys res)).
  rewrite saves_of_decryptions, writes_of_decryptions.
  split; destruct next.1; reflexivity.
Qed.


(** C3.  When the server query throws, [tryCachedLogin] returns false.  The
    session cache counts as invalid exactly when the error is an
    [ApolloError] whose first GraphQL error is of type NotFound, BadRequest
    or NotAuthorized; then the latest-user-ID cache is cleared and the page
    reloaded exactly when a next user was set.  For any other error the
    error is logged, nothing else is called, and local storage, hence the
    cached blob, is what it was. *)
Theorem tryCachedLogin_query_throws (ls : gmap string string) (enc : string)
    (e : QueryError) :
  insideFrame E = false ->
  getSessionCacheForLatestUser E ls = Some enc ->
  enc <> "" ->
  client_query E = QueryThrew e ->
  let r := tryCachedLogin E ls in
  let next := setNextUUID E (clearLatestUserIDCache E ls) in
  result r = false
  /\ (sessionCacheIsInvalid E e = true <->
      exists errors, e = ApolloError errors
        /\ (isApolloLogicErrorType E (head errors) NotFound = true
            \/ isApolloLogicErrorType E (head errors) BadRequest = true
            \/ isApolloLogicErrorType E (head errors) NotAuthorized = true))
  /\ (sessionCacheIsInvalid E e = true ->
      storage r = next.2
      /\ events r
         = [GetSessionCacheForLatestUser; QueryGetSessionCache;
            ConsoleLog "Server-side session cache is invalid, cleaning local state";
            ClearLatestUserIDCache; SetNextUUID]
           ++ (if next.1 then [WindowLocationReload] else []))
  /\ (sessionCacheIsInvalid E e = false ->
      storage r = ls
      /\ events r
         = [GetSessionCacheForLatestUser; QueryGetSessionCache;
            ConsoleError "Unexpected error while getting session cache:" e]
      /\ getSessionCacheForLatestUser E (storage r) = Some enc).
Proof.
  intros Hframe Hblob Hne Hq r next. subst r.
  rewrite (tryCachedLogin_query_threw E ls enc e Hframe Hblob Hne Hq), onQueryError_run.
  split; [by destruct (sessionCacheIsInvalid E e)|]. split.
  - destruct e as [errors|msg]; cbn.
    + rewrite !orb_true_iff. split.
      * intros H. exists errors. split; [done|]. tauto.
      * intros (errors' & [= <-] & H). tauto.
    + split; [discriminate|]. by intros (errors & [=] & _).
  - split; intros Hinv; rewrite Hinv; cbn; auto.
Qed.

(** C2.  Whenever the decryption step yields a user, that user comes from a
    successful decryption under one of the server's keys, [tryCachedLogin]
    returns true and [saveCurrentUserData] is called exactly once, with the
    reconciled user: [publicData] is the server's; [recoveryEmail] and
    [unverifiedRecoveryEmail] are the server's unless that is undefined;
    [walletAddress] and [rootOrgID] are the server's when that is truthy;
    these four are otherwise, and every other field always, as decrypted.
    When the server sent no current user, the user is saved as decrypted. *)
Theorem reconciliation_touches_only_refreshed_fields (ls : gmap string string)
    (enc : string) (res : SessionCacheResponse) (u : User) :
  insideFrame E = false ->
  getSessionCacheForLatestUser E ls = Some enc ->
  enc <> "" ->
  client_query E = QueryReturned res ->
  result (resolveDecryptedUser E enc res ls) = Some u ->
  (exists k d, k ∈ cacheKey res :: alternativeCacheKeys res
               /\ decryptSessionCacheData E enc k = Returns d /\ u = user d)
  /\ result (tryCachedLogin E ls) = true
  /\ exists merged,
       savedUsers (events (tryCachedLogin E ls)) = [merged]
       /\ match currentUser res with
          | Some fresh => reconciled fresh u merged
          | None => merged = u
          end.
Proof.
  intros Hframe Hblob Hne Hq Hres.
  split; [exact (resolveDecryptedUser_result E _ _ _ _ Hres)|].
  rewrite (tryCachedLogin_run E ls enc res Hframe Hblob Hne Hq). cbn zeta.
  rewrite Hres. split; [reflexivity|].
  exists (refreshUser (currentUser res) u). split.
  - cbn [events]. unfold savedUsers. rewrite !omap_app.
    destruct (resolving_log _ _ (resolveDecryptedUser_resolving E enc res ls))
      as (_ & Hsaved & _).
    unfold savedUsers in Hsaved. rewrite Hsaved.
    by destruct (isMobileApp E).
  - destruct (currentUser res) as [fresh|]; [apply refreshUser_reconciled|reflexivity].
Qed.



(** The loop looks nothing up, removes nothing, and writes at most once per
    decryption. *)
Lemma tryAlternativeKeys_once (enc key : string) (alternatives : list string) :
  forall (acc : option User) (ls : gmap string string),
    let evs := events (tryAlternativeKeys E enc key alternatives acc ls) in
    storageLookups evs = []
    /\ storageRemovals evs = []
    /\ (length (sessionCacheWrites evs) <= length (decryptionAttempts evs))%nat.
Proof.
  unfold storageLookups, storageRemovals, sessionCacheWrites, decryptionAttempts.
  induction alternatives as [|k rest IH]; intros acc ls; cbn zeta.
  - cbn. repeat split. lia.
  - destruct (decryptSessionCacheData E enc k) as [d|] eqn:Hk.
    + rewrite (tryAlternativeKeys_returns E _ _ _ _ _ _ _ Hk). cbn zeta.
      destruct (returned _).
      * cbn. repeat split. lia.
      * destruct (IH (Some (user d)) (writeSessionCacheData E d key ls).2)
          as (IHl & IHr & IHw).
        rewrite events_after. cbn. repeat split; [done|done|lia].
    + destruct (IH acc ls) as (IHl & IHr & IHw).
      rewrite (tryAlternativeKeys_throws E _ _ _ _ _ _ Hk), events_after.
      cbn. repeat split; [done|done|lia].
Qed.

Lemma resolveDecryptedUser_once (enc : string) (res : SessionCacheResponse)
    (ls : gmap string string) :
  let evs := events (resolveDecryptedUser E enc res ls) in
  (length (storageLookups evs) <= 1)%nat
  /\ (length (storageRemovals evs) <= 1)%nat
  /\ (length (sessionCacheWrites evs) <= length (decryptionAttempts evs))%nat.
Proof.
  cbn zeta.
  destruct (decryptSessionCacheData E enc (cacheKey res)) as [d|] eqn:Hk.
  - rewrite (resolveDecryptedUser_primary E _ _ _ _ Hk),
      (tryPrimaryKey_returns E _ _ _ _ Hk). cbn zeta.
    destruct (ls !! _); [cbn; lia|]. destruct (returned _); cbn; lia.
  - rewrite (resolveDecryptedUser_fallback E _ _ _ Hk), events_after.
    destruct (tryAlternativeKeys_once enc (cacheKey res) (alternativeCacheKeys res)
                None ls) as (Hl & Hr & Hw).
    unfold storageLookups, storageRemovals, sessionCacheWrites, decryptionAttempts in *.
    cbn. rewrite Hl, Hr. cbn. lia.
Qed.

(** The calls around the decryption step look nothing up, remove nothing and
    write no session cache. *)
Lemma tryCachedLogin_storage_calls (ls : gmap string string) (enc : string)
    (res : SessionCacheResponse) :
  insideFrame E = false ->
  getSessionCacheForLatestUser E ls = Some enc ->
  enc <> "" ->
  client_query E = QueryReturned res ->
  storageLookups (events (tryCachedLogin E ls))
  = storageLookups (events (resolveDecryptedUser E enc res ls))
  /\ storageRemovals (events (tryCachedLogin E ls))
     = storageRemovals (events (resolveDecryptedUser E enc res ls))
  /\ sessionCacheWrites (events (tryCachedLogin E ls))
     = sessionCacheWrites (events (resolveDecryptedUser E enc res ls)).
Proof.
  intros Hframe Hblob Hne Hq.
  rewrite (tryCachedLogin_run E ls enc res Hframe Hblob Hne Hq). cbn zeta.
  unfold storageLookups, storageRemovals, sessionCacheWrites.
  destruct (result (resolveDecryptedUser E enc res ls)); cbn [events];
    rewrite !omap_app; cbn.
  - destruct (isMobileApp E); cbn; by rewrite !app_nil_r.
  - destruct (setNextUUID E _).1; cbn; by rewrite !app_nil_r.
Qed.

(** C6.  When no encrypted blob is stored for the latest user (the read
    yields null or the empty string), [tryCachedLogin] returns false with
    storage untouched and without having issued the server query.  On every
    run the four steps (cache read, server query, decryption with fallback,
    local state write) occur in that order and at most once each: the read,
    the query and the write are single calls, and the decryption step is one
    unbroken block that makes a single pass over the server's keys, the
    primary key once and then an initial segment of the alternative keys,
    with at most one storage look-up, one removal, and one write per
    decryption. *)
Theorem tryCachedLogin_steps_once_in_order (ls : gmap string string) :
  let r := tryCachedLogin E ls in
  (falsy_string (getSessionCacheForLatestUser E ls) = true ->
   result r = false
   /\ storage r = ls
   /\ (QueryGetSessionCache ∉ events r)
   /\ steps (events r) `prefix_of` [SessionCacheRead])
  /\ onceEachInOrder (client_query E) (events r).
Proof.
  cbn zeta. unfold onceEachInOrder, decryptionStepOnce.
  destruct (insideFrame E) eqn:Hframe.
  { rewrite (tryCachedLogin_in_frame E ls Hframe). cbn. split.
    - intros _. repeat split; [apply not_elem_of_nil|by eexists].
    - split; [by exists false, false, false, 0%nat|]. repeat split; auto. }
  destruct (falsy_string (getSessionCacheForLatestUser E ls)) eqn:Hfalsy.
  { rewrite (tryCachedLogin_no_blob E ls Hframe Hfalsy). cbn. split.
    - intros _. repeat split; [|by exists []].
      intros Hin. apply list_elem_of_singleton in Hin. discriminate.
    - split; [by exists true, false, false, 0%nat|]. repeat split; auto. }
  split; [discriminate|].
  destruct (getSessionCacheForLatestUser E ls) as [enc|] eqn:Hblob; [|discriminate].
  assert (Hne : enc <> "") by (intros ->; discriminate).
  destruct (client_query E) as [res|e] eqn:Hq.
  - split.
    + rewrite (tryCachedLogin_run E ls enc res Hframe Hblob Hne Hq). cbn zeta.
      destruct (resolving_log _ _ (resolveDecryptedUser_resolving E enc res ls))
        as (Hsteps & _).
      set (n := length (events (resolveDecryptedUser E enc res ls))) in Hsteps.
      unfold steps in *.
      destruct (result (resolveDecryptedUser E enc res ls)) as [u|]; cbn [result events].
      * exists true, true, true, n. rewrite !omap_app, Hsteps.
        by destruct (isMobileApp E).
      * exists true, true, false, n. rewrite !omap_app, Hsteps.
        by destruct (setNextUUID E _).1.
    + destruct (tryCachedLogin_storage_calls ls enc res Hframe Hblob Hne Hq)
        as (-> & -> & ->).
      rewrite (tryCachedLogin_attempts E ls enc res Hframe Hblob Hne Hq).
      destruct (resolveDecryptedUser_once enc res ls) as (Hl & Hr & Hw).
      destruct (resolveDecryptedUser_attempts E enc res ls)
        as (tried & Heq & Hprefix & _).
      repeat split; try done. right. by exists res, tried.
  - rewrite (tryCachedLogin_query_threw E ls enc e Hframe Hblob Hne Hq), onQueryError_run.
    split.
    + exists true, true, false, 0%nat.
      destruct (sessionCacheIsInvalid E e); cbn; [|done].
      by destruct (setNextUUID E _).1.
    + destruct (sessionCacheIsInvalid E e); cbn;
        [destruct (setNextUUID E _).1; cbn|]; repeat split; auto.
Qed.

(** The calls outside the decryption step write no session cache. *)
Lemma tryCachedLogin_writes (ls : gmap string string) (enc : string)
    (res : SessionCacheResponse) :
  insideFrame E = false ->
  getSessionCacheForLatestUser E ls = Some enc ->
  enc <> "" ->
  client_query E = QueryReturned res ->
  sessionCacheWrites (events (tryCachedLogin E ls))
  = sessionCacheWrites (events (resolveDecryptedUser E enc res ls)).
Proof.
  intros Hframe Hblob Hne Hq.
  rewrite (tryCachedLogin_run E ls enc res Hframe Hblob Hne Hq). cbn zeta.
  unfold sessionCacheWrites.
  destruct (result (resolveDecryptedUser E enc res ls)); cbn [events];
    rewrite !omap_app; cbn.
  - destruct (isMobileApp E); cbn; by rewrite app_nil_r.
  - destruct (setNextUUID E _).1; cbn; by rewrite app_nil_r.
Qed.

(** C4, amended.  After a successful server query: if the primary key
    decrypts the blob and local storage has no per-user-ID entry,
    [writeSessionCacheData] is called once, with the decrypted data and the
    primary key, and when that call returns the old-format entry is removed;
    when it throws, the removal is skipped and storage is what the failed
    write left.  If the primary key fails and an alternative key is the
    first to decrypt the blob, [writeSessionCacheData] is called with the
    data it decrypted and the primary key.  Every write of the run uses the
    primary key. *)
Theorem storage_migration_uses_primary_key (ls : gmap string string) (enc : string)
    (res : SessionCacheResponse) :
  insideFrame E = false ->
  getSessionCacheForLatestUser E ls = Some enc ->
  enc <> "" ->
  client_query E = QueryReturned res ->
  let r := tryCachedLogin E ls in
  (forall d,
      decryptSessionCacheData E enc (cacheKey res) = Returns d ->
      ls !! getSessionCacheKeyForUserID E (userID (user d)) = None ->
      let w := writeSessionCacheData E d (cacheKey res) ls in
      sessionCacheWrites (events r) = [(d, cacheKey res)]
      /\ (returned w.1 = true ->
          LocalStorageRemoveItem (storageKey_SESSION_CACHE E) ∈ events r
          /\ storage r = delete (storageKey_SESSION_CACHE E) w.2
          /\ storage r !! storageKey_SESSION_CACHE E = None)
      /\ (returned w.1 = false ->
          (LocalStorageRemoveItem (storageKey_SESSION_CACHE E) ∉ events r)
          /\ storage r = w.2))
  /\ (forall failing k rest d,
        decryptSessionCacheData E enc (cacheKey res) = Throws ->
        alternativeCacheKeys res = failing ++ k :: rest ->
        Forall (fun k' => decryptSessionCacheData E enc k' = Throws) failing ->
        decryptSessionCacheData E enc k = Returns d ->
        (d, cacheKey res) ∈ sessionCacheWrites (events r))
  /\ Forall (fun w => w.2 = cacheKey res) (sessionCacheWrites (events r)).
Proof.
  intros Hframe Hblob Hne Hq r. subst r.
  rewrite (tryCachedLogin_writes ls enc res Hframe Hblob Hne Hq).
  split; [|split].
  - intros d Hd Hnone.
    rewrite (tryCachedLogin_run E ls enc res Hframe Hblob Hne Hq). cbn zeta.
    rewrite (resolveDecryptedUser_primary E _ _ _ _ Hd),
      (tryPrimaryKey_returns E _ _ _ _ Hd). cbn zeta. rewrite Hnone.
    set (w := writeSessionCacheData E d (cacheKey res) ls).
    destruct (returned w.1) eqn:Hw; cbn [result storage events].
    + split; [reflexivity|]. split; [|discriminate].
      intros _. split; [|split; [reflexivity|apply lookup_delete_eq]].
      rewrite !elem_of_app, !elem_of_cons. tauto.
    + split; [reflexivity|]. split; [discriminate|].
      intros _. split; [|reflexivity].
      destruct (isMobileApp E); cbn;
        rewrite !not_elem_of_cons; repeat split; try discriminate;
        apply not_elem_of_nil.
  - intros failing k rest d Hprimary Halts Hfailing Hk.
    rewrite (resolveDecryptedUser_fallback E _ _ _ Hprimary), Halts,
      (tryAlternativeKeys_failing_prefix E _ _ _ _ _ _ Hfailing),
      (tryAlternativeKeys_returns E _ _ _ _ _ _ _ Hk). cbn zeta.
    rewrite !events_after. unfold sessionCacheWrites. rewrite !omap_app.
    fold (sessionCacheWrites (DecryptSessionCacheData enc <$> failing)).
    rewrite writes_of_decryptions.
    destruct (returned _); rewrite ?events_after; cbn; apply elem_of_cons; by left.
  - by destruct (resolving_log _ _ (resolveDecryptedUser_resolving E enc res ls))
      as (_ & _ & _ & _ & Hwrites).
Qed.

End Claims.

Lemma tryCachedLogin_skipped_inside_frame_witness :
  location (window framedBrowser) <> parent_location (window framedBrowser)
  /\ tryCachedLogin framedBrowser oldFormatStorage = MkRun false oldFormatStorage [].
Proof.
  split; [discriminate|].
  apply (tryCachedLogin_skipped_inside_frame framedBrowser oldFormatStorage).
  discriminate.
Defined.

Lemma tryCachedLogin_no_key_decrypts_witness :
  decryptSessionCacheData staleBrowser "blob" (cacheKey response) = Throws
  /\ result (tryCachedLogin staleBrowser oldFormatStorage) = false
  /\ savedUsers (events (tryCachedLogin staleBrowser oldFormatStorage)) = [].
Proof.
  split; [reflexivity|].
  destruct (tryCachedLogin_no_key_decrypts staleBrowser oldFormatStorage "blob" response)
    as (Hrun & Hsaved & _).
  - reflexivity.
  - reflexivity.
  - discriminate.
  - reflexivity.
  - reflexivity.
  - repeat constructor.
  - split; [|exact Hsaved]. now rewrite Hrun.
Defined.

Lemma tryCachedLogin_query_throws_witness :
  client_query signedOutBrowser
  = QueryThrew (ApolloError [{| extensionsCode := "NOT_AUTHORIZED" |}])
  /\ result (tryCachedLogin signedOutBrowser oldFormatStorage) = false.
Proof.
  split; [reflexivity|].
  apply (tryCachedLogin_query_throws signedOutBrowser oldFormatStorage "blob"
           (ApolloError [{| extensionsCode := "NOT_AUTHORIZED" |}]));
    [reflexivity | reflexivity | discriminate | reflexivity].
Defined.

Lemma reconciliation_touches_only_refreshed_fields_witness :
  result (resolveDecryptedUser healthyBrowser "blob" response oldFormatStorage) = Some alice
  /\ result (tryCachedLogin healthyBrowser oldFormatStorage) = true.
Proof.
  split; [reflexivity|].
  apply (reconciliation_touches_only_refreshed_fields healthyBrowser oldFormatStorage
           "blob" response alice);
    [reflexivity | reflexivity | discriminate | reflexivity | reflexivity].
Defined.

Lemma tryCachedLogin_steps_once_in_order_witness :
  falsy_string (getSessionCacheForLatestUser healthyBrowser ∅) = true
  /\ result (tryCachedLogin healthyBrowser ∅) = false.
Proof.
  split; [reflexivity|].
  apply (proj1 (tryCachedLogin_steps_once_in_order healthyBrowser ∅)).
  reflexivity.
Defined.

Lemma storage_migration_uses_primary_key_witness :
  decryptSessionCacheData healthyBrowser "blob" (cacheKey response) = Returns aliceCache
  /\ oldFormatStorage !! "sessionCache:alice" = None
  /\ sessionCacheWrites (events (tryCachedLogin healthyBrowser oldFormatStorage))
     = [(aliceCache, "primary")].
Proof.
  split; [reflexivity|]. split; [reflexivity|].
  apply (proj1 (storage_migration_uses_primary_key healthyBrowser oldFormatStorage
                  "blob" response eq_refl eq_refl ltac:(discriminate) eq_refl)
           aliceCache);
    reflexivity.
Defined.

(** C4 as stated fails on a full storage: the primary key decrypts the blob,
    no per-user-ID entry exists, the write throws, and the old-format entry
    is still there at the end. *)
Lemma primary_migration_fails_on_full_storage :
  ~ claimedPrimaryMigration fullStorageBrowser oldFormatStorage.
Proof.
  intros H.
  destruct (H "blob" response aliceCache) as [_ Hremoved];
    [reflexivity | reflexivity | discriminate | reflexivity | reflexivity | reflexivity |].
  vm_compute in Hremoved. discriminate.
Qed.

(** C1.  On a full storage, with alternative keys old1 and old2 of which old1
    decrypts the blob, the run still hands old2 to [decryptSessionCacheData]:
    the write after the match throws, the [break] is skipped, and the loop
    goes on.  The claimed order stops at old1. *)
Theorem alternatives_tried_past_first_match :
  decryptionAttempts (events (tryCachedLogin fullStorageRotatedBrowser oldFormatStorage))
  = ["primary"; "old1"; "old2"]
  /\ claimedAttempts
       (fun k => returned (decryptSessionCacheData fullStorageRotatedBrowser "blob" k))
       response
     = ["primary"; "old1"].
Proof. split; vm_compute; reflexivity. Qed.

End CachedLoginFacts.

(** * Further properties *)

(** ** Unstoppable Domains tokens *)

Module UdTokenFacts.
Import UdToken.

Lemma matches_nil_nullable (r : Regex) : Matches r [] -> nullable r = true.
Proof.
  intros H. remember [] as s eqn:Hs. induction H; try reflexivity; try discriminate.
  - apply app_eq_nil in Hs as [-> ->]. cbn. by rewrite IHMatches1, IHMatches2.
  - cbn. by rewrite IHMatches.
  - cbn. rewrite IHMatches by done. apply orb_true_r.
Qed.

Lemma nullable_matches_nil (r : Regex) : nullable r = true -> Matches r [].
Proof.
  induction r; cbn; intros H; try discriminate.
  - constructor.
  - apply andb_true_iff in H as [H1 H2].
    change (@nil ascii) with (@nil ascii ++ []). constructor; auto.
  - apply orb_true_iff in H as [H|H]; [apply MAltL|apply MAltR]; auto.
  - constructor.
Qed.

(** A non-empty match of a star starts with a non-empty match of its body. *)
Lemma matches_star_cons (r : Regex) (c : ascii) (s : list ascii) :
  Matches (Star r) (c :: s) ->
  exists s1 s2, s = s1 ++ s2 /\ Matches r (c :: s1) /\ Matches (Star r) s2.
Proof.
  intros H. remember (Star r) as r' eqn:Hr. remember (c :: s) as cs eqn:Hcs.
  revert Hr Hcs.
  induction H as [| | | | | |r0 s1 s2 H1 _ H2 IH2]; intros Hr Hcs; try discriminate.
  injection Hr as ->.
  destruct s1 as [|c1 s1].
  - apply IH2; done.
  - cbn in Hcs. injection Hcs as -> <-. by exists s1, s2.
Qed.

Lemma matches_seq_inv (r1 r2 : Regex) (s : list ascii) :
  Matches (Seq r1 r2) s ->
  exists s1 s2, s = s1 ++ s2 /\ Matches r1 s1 /\ Matches r2 s2.
Proof. intros H. inversion H; subst. eauto. Qed.

Lemma derive_matches (r : Regex) : forall (c : ascii) (s : list ascii),
  Matches (derive c r) s <-> Matches r (c :: s).
Proof.
  induction r as [| |items|r1 IH1 r2 IH2|r1 IH1 r2 IH2|r IH]; intros c s; cbn.
  - split; intros H; inversion H.
  - split; intros H; inversion H.
  - destruct (existsb (inItem c) items) eqn:Hin; split; intros H.
    + inversion H; subst. by constructor.
    + inversion H; subst. constructor.
    + inversion H.
    + inversion H; subst. congruence.
  - assert (Hseq : Matches (Seq (derive c r1) r2) s -> Matches (Seq r1 r2) (c :: s)).
    { intros H. destruct (matches_seq_inv _ _ _ H) as (s1 & s2 & -> & H1 & H2).
      apply IH1 in H1. change (c :: s1 ++ s2) with ((c :: s1) ++ s2). by constructor. }
    assert (Hinv : Matches (Seq r1 r2) (c :: s) ->
                   Matches (Seq (derive c r1) r2) s
                   \/ (nullable r1 = true /\ Matches (derive c r2) s)).
    { intros H. destruct (matches_seq_inv _ _ _ H) as (s1 & s2 & Heq & H1 & H2).
      symmetry in Heq. destruct s1 as [|c1 s1].
      - right. cbn in Heq. subst s2. split; [by apply matches_nil_nullable|by apply IH2].
      - cbn in Heq. injection Heq as -> <-. left. constructor; [by apply IH1|done]. }
    destruct (nullable r1) eqn:Hn; split; intros H.
    + inversion H; subst; [by apply Hseq|].
      change (c :: s) with ([] ++ c :: s). constructor;
        [by apply nullable_matches_nil|by apply IH2].
    + destruct (Hinv H) as [H'|[_ H']]; [by apply MAltL|by apply MAltR].
    + by apply Hseq.
    + destruct (Hinv H) as [H'|[? _]]; [done|discriminate].
  - split; intros H; inversion H; subst.
    + apply MAltL. by apply IH1.
    + apply MAltR. by apply IH2.
    + apply MAltL. by apply IH1.
    + apply MAltR. by apply IH2.
  - split; intros H.
    + destruct (matches_seq_inv _ _ _ H) as (s1 & s2 & -> & H1 & H2).
      change (c :: s1 ++ s2) with ((c :: s1) ++ s2). constructor; [by apply IH|done].
    + destruct (matches_star_cons _ _ _ H) as (s1 & s2 & -> & H1 & H2).
      constructor; [by apply IH|done].
Qed.

(** The test decides the relation. *)
Lemma testAnchored_matches (s : string) : forall r : Regex,
  testAnchored r s = true <-> Matches r (list_ascii_of_string s).
Proof.
  unfold testAnchored. induction s as [|c s IH]; intros r; cbn.
  - split; [apply nullable_matches_nil|apply matches_nil_nullable].
  - rewrite IH. apply derive_matches.
Qed.

Lemma matches_star_class (items : list ClassItem) (s : list ascii) :
  Matches (Star (Class items)) s <-> Forall (fun c => existsb (inItem c) items = true) s.
Proof.
  split.
  - induction s as [|c s IH]; intros H; [constructor|].
    destruct (matches_star_cons _ _ _ H) as (s1 & s2 & -> & H1 & H2).
    inversion H1; subst. cbn. constructor; [done|]. by apply IH.
  - induction 1 as [|c s Hc _ IH]; [constructor|].
    change (c :: s) with ([c] ++ s). constructor; [by constructor|done].
Qed.

Lemma matches_plus_class (items : list ClassItem) (s : list ascii) :
  Matches (Plus (Class items)) s
  <-> s <> [] /\ Forall (fun c => existsb (inItem c) items = true) s.
Proof.
  unfold Plus. split.
  - intros H. destruct (matches_seq_inv _ _ _ H) as (s1 & s2 & -> & H1 & H2).
    inversion H1; subst. cbn. split; [done|].
    constructor; [done|]. by apply matches_star_class.
  - intros [Hne H]. destruct H as [|c s Hc Hs]; [done|].
    change (c :: s) with ([c] ++ s). constructor; [by constructor|].
    by apply matches_star_class.
Qed.

Lemma udTokenClass_spec (c : ascii) :
  existsb (inItem c) udTokenClass = true <-> udTokenChar c.
Proof.
  unfold udTokenChar, udTokenClass. cbn [existsb inItem].
  rewrite !orb_true_iff, !andb_true_iff, !Nat.leb_le, !Ascii.eqb_eq.
  change (nat_of_ascii "a") with 97%nat. change (nat_of_ascii "z") with 122%nat.
  change (nat_of_ascii "A") with 65%nat. change (nat_of_ascii "Z") with 90%nat.
  change (nat_of_ascii "0") with 48%nat. change (nat_of_ascii "9") with 57%nat.
  cbn zeta. intuition discriminate.
Qed.

(** X1.  [checkUdToken] accepts exactly the non-empty strings all of whose
    characters are ASCII letters, digits, hyphens, underscores or dots. *)
Theorem checkUdToken_accepts (udToken : string) :
  checkUdToken udToken = true
  <-> udToken <> "" /\ Forall udTokenChar (list_ascii_of_string udToken).
Proof.
  unfold checkUdToken. rewrite testAnchored_matches, matches_plus_class.
  split; intros [Hne Hall]; split.
  - intros ->. by apply Hne.
  - eapply Forall_impl; [exact Hall|]. intros c. apply udTokenClass_spec.
  - destruct udToken; [done|discriminate].
  - eapply Forall_impl; [exact Hall|]. intros c. apply udTokenClass_spec.
Qed.

End UdTokenFacts.

(** ** Abbreviations and icons *)

Module WalletUtilsMore.
Import Js JsFacts WalletUtils WalletUtilsFacts Scenarios MoreScenarios.

Lemma chars_append (a b : string) :
  list_ascii_of_string (a +:+ b) = list_ascii_of_string a ++ list_ascii_of_string b.
Proof. induction a as [|c a IH]; [reflexivity|]. simpl. f_equal. exact IH. Qed.

Lemma length_append (a b : string) :
  String.length (a +:+ b) = (String.length a + String.length b)%nat.
Proof. by rewrite <- !length_chars, chars_append, length_app. Qed.

Lemma length_firstChars (n : nat) (s : string) :
  String.length (firstChars n s) = (n `min` String.length s)%nat.
Proof.
  unfold firstChars.
  by rewrite <- length_chars, list_ascii_of_string_of_list_ascii, length_take, length_chars.
Qed.

Lemma length_lastChars (n : nat) (s : string) :
  String.length (lastChars n s) = (n `min` String.length s)%nat.
Proof.
  unfold lastChars. cbn zeta.
  rewrite <- length_chars, list_ascii_of_string_of_list_ascii, length_drop, length_chars.
  lia.
Qed.

(** [s.slice(0)] and [s.slice(-0)] are [s]. *)
Lemma slice_from_start (s : string) : slice s 0 None = s.
Proof.
  apply string_chars_inj. unfold slice, relative_index.
  rewrite substring_chars. change (0 <? 0) with false. cbn iota.
  rewrite (Z.min_l 0) by lia. rewrite Z.sub_0_r, Nat2Z.id. cbn [Z.to_nat drop].
  rewrite drop_0. apply take_ge. by rewrite length_chars.
Qed.

(** The default call on a non-empty address, through [slice]. *)
Lemma abbreviate_default (w : string) :
  w <> "" ->
  abbreviateWalletAddress (Some w) None None
  = firstChars 5 w +:+ "..." +:+ lastChars 4 w.
Proof.
  intros Hw. unfold abbreviateWalletAddress.
  rewrite (falsy_string_nonempty w Hw). cbn [nullish].
  change (2 + 3) with (Z.of_nat 5).
  change (Z.opp 4) with (Z.opp (Z.of_nat 4)).
  by rewrite slice_prefix, slice_suffix by lia.
Qed.

(** X2.  With default parameters the abbreviation of a non-empty address has
    [min 5 len + 3 + min 4 len] characters: never more than 12, exactly 12
    for an address of at least 5 characters, and more than the address
    itself when the address has fewer than 12 characters. *)
Theorem abbreviateWalletAddress_length (w : string) :
  w <> "" ->
  let len := String.length w in
  let short := String.length (abbreviateWalletAddress (Some w) None None) in
  short = (5 `min` len + 3 + 4 `min` len)%nat
  /\ (short <= 12)%nat
  /\ ((5 <= len)%nat -> short = 12%nat)
  /\ ((len < 12)%nat -> (len < short)%nat).
Proof.
  intros Hw len short. subst short.
  rewrite (abbreviate_default w Hw).
  rewrite !length_append, length_firstChars, length_lastChars. fold len.
  cbn [String.length]. lia.
Qed.


Lemma abbreviateWalletAddress_length_witness :
  "0xdDD5e8a1ab3D" <> ""
  /\ String.length (abbreviateWalletAddress (Some "0xdDD5e8a1ab3D") None None) = 12%nat.
Proof.
  split; [discriminate|].
  apply (abbreviateWalletAddress_length "0xdDD5e8a1ab3D"); [discriminate | cbn; lia].
Defined.

(** X3.  With explicit lengths, [startChars >= -2] and [endChars > 0], the
    abbreviation of a non-empty address is its first [2 + startChars]
    characters, "...", and its last [endChars] characters. *)
Theorem abbreviateWalletAddress_custom_lengths (w : string) (startChars endChars : Z) :
  w <> "" ->
  0 <= 2 + startChars ->
  0 < endChars ->
  abbreviateWalletAddress (Some w) (Some startChars) (Some endChars)
  = firstChars (Z.to_nat (2 + startChars)) w +:+ "..."
      +:+ lastChars (Z.to_nat endChars) w.
Proof.
  intros Hw Hs He. unfold abbreviateWalletAddress.
  rewrite (falsy_string_nonempty w Hw). cbn [nullish].
  rewrite <- (Z2Nat.id (2 + startChars)) at 1 by lia.
  rewrite <- (Z2Nat.id endChars) at 1 by lia.
  by rewrite slice_prefix, slice_suffix by lia.
Qed.

Lemma abbreviateWalletAddress_custom_lengths_witness :
  "0xdDD5e8a1ab3D" <> "" /\ 0 <= 2 + 1 /\ 0 < 2
  /\ abbreviateWalletAddress (Some "0xdDD5e8a1ab3D") (Some 1) (Some 2) = "0xd...3D".
Proof.
  split; [discriminate|]. split; [lia|]. split; [lia|].
  rewrite (abbreviateWalletAddress_custom_lengths "0xdDD5e8a1ab3D" 1 2);
    [reflexivity | discriminate | lia | lia].
Defined.

(** X4.  [endChars = 0] does not drop the tail: [slice(-0)] is [slice(0)], so
    the whole address follows the dots. *)
Theorem abbreviateWalletAddress_zero_endChars (w : string) (startChars : option Z) :
  w <> "" ->
  0 <= 2 + nullish startChars 3 ->
  abbreviateWalletAddress (Some w) startChars (Some 0)
  = firstChars (Z.to_nat (2 + nullish startChars 3)) w +:+ "..." +:+ w.
Proof.
  intros Hw Hs. unfold abbreviateWalletAddress.
  rewrite (falsy_string_nonempty w Hw). cbn [nullish].
  rewrite <- (Z2Nat.id (2 + nullish startChars 3)) at 1 by lia.
  change (- 0) with 0.
  by rewrite slice_prefix, slice_from_start.
Qed.

Lemma abbreviateWalletAddress_zero_endChars_witness :
  "0xdDD5e8a1ab3D" <> "" /\ 0 <= 2 + nullish None 3
  /\ abbreviateWalletAddress (Some "0xdDD5e8a1ab3D") None (Some 0)
     = "0xdDD...0xdDD5e8a1ab3D".
Proof.
  split; [discriminate|]. split; [cbn; lia|].
  rewrite (abbreviateWalletAddress_zero_endChars "0xdDD5e8a1ab3D" None);
    [reflexivity | discriminate | cbn; lia].
Defined.

Section WithValidators.
Context (V : Validators).

(** X5.  For a non-empty alias [getWalletIcon] never throws; it returns
    undefined exactly when every one of the six checks fails, and the Solana
    icon exactly when the Solana check is the only family that passes. *)
Theorem getWalletIcon_decides (alias : string) :
  alias <> "" ->
  let noEthereum := isEthereumAddress V alias = false /\ isENSName V alias = false in
  let noCosmos :=
    isCosmosHubAddress V (Some alias) = Returns false
    /\ isJunoAddress V alias = false /\ isICNSName V alias = false in
  getWalletIcon V (Some alias) <> Throws
  /\ (getWalletIcon V (Some alias) = Returns None
      <-> noEthereum /\ noCosmos /\ isSolanaAddress V alias = false)
  /\ (getWalletIcon V (Some alias) = Returns (Some Solana)
      <-> noEthereum /\ noCosmos /\ isSolanaAddress V alias = true).
Proof.
  intros Hne. cbn zeta. unfold getWalletIcon.
  rewrite (falsy_string_nonempty alias Hne), isCosmosHubAddress_returns.
  rewrite (falsy_string_nonempty alias Hne). cbn [negb andb].
  destruct (isEthereumAddress V alias), (isENSName V alias),
    (Bech32Address_validate V alias "cosmos"), (isJunoAddress V alias),
    (isICNSName V alias), (isSolanaAddress V alias); cbn;
    (split; [discriminate|]); split; split; intros H;
    try discriminate; try (repeat split; reflexivity);
    try (destruct H as [[? ?] [[? [? ?]] ?]]; discriminate).
Qed.

End WithValidators.

Lemma getWalletIcon_decides_witness :
  "So1ana" <> ""
  /\ getWalletIcon solanaOnly (Some "So1ana") <> Throws.
Proof.
  split; [discriminate|].
  apply (getWalletIcon_decides solanaOnly "So1ana"). discriminate.
Defined.

End WalletUtilsMore.

(** ** Injected wallet providers *)

Module WalletProvidersFacts.
Import Js WalletProviders MoreScenarios.

(** Both switches pick the first candidate that carries the flag. *)
Lemma getEthProvider_find (eth : Ethereum) (providerName : EthProvider) :
  getEthProvider (Some eth) providerName
  = List.find (hasFlag providerName) (candidates eth).
Proof.
  unfold getEthProvider, candidates.
  destruct (providers eth) as [list|]; destruct providerName; cbn; try reflexivity.
  by induction list.
Qed.

Lemma find_first {A : Type} (f : A -> bool) (before after : list A) (x : A) :
  Forall (fun y => f y = false) before -> f x = true ->
  List.find f (before ++ x :: after) = Some x.
Proof.
  induction 1 as [|y before Hy _ IH]; intros Hx; cbn.
  - by rewrite Hx.
  - rewrite Hy. by apply IH.
Qed.

(** X6.  [getEthProvider] returns undefined without [window.ethereum]; a
    provider it returns is one of the candidates (the [providers] list, or
    [window.ethereum] itself when there is no list) and carries the flag of
    the requested name; it returns undefined exactly when no candidate
    carries the flag; and among several flagged providers the first of the
    list wins. *)
Theorem getEthProvider_first_flagged_candidate (providerName : EthProvider) :
  getEthProvider None providerName = None
  /\ (forall eth p,
        getEthProvider (Some eth) providerName = Some p ->
        In p (candidates eth) /\ hasFlag providerName p = true)
  /\ (forall eth,
        getEthProvider (Some eth) providerName = None
        <-> Forall (fun w => hasFlag providerName w = false) (candidates eth))
  /\ (forall eth before p after,
        providers eth = Some (before ++ p :: after) ->
        Forall (fun w => hasFlag providerName w = false) before ->
        hasFlag providerName p = true ->
        getEthProvider (Some eth) providerName = Some p).
Proof.
  split; [reflexivity|]. split; [|split].
  - intros eth p. rewrite getEthProvider_find. apply List.find_some.
  - intros eth. rewrite getEthProvider_find, Forall_forall. split.
    + intros H w Hw. apply (List.find_none _ _ H). by apply list_elem_of_In.
    + intros H. destruct (List.find _ _) as [w|] eqn:Hfind; [|done].
      apply List.find_some in Hfind as [Hin Hflag].
      apply list_elem_of_In, H in Hin. congruence.
  - intros eth before p after Hlist Hbefore Hp.
    rewrite getEthProvider_find. unfold candidates. rewrite Hlist.
    by apply find_first.
Qed.

Lemma getEthProvider_first_flagged_candidate_witness :
  getEthProvider (Some twoWallets) Coinbase = Some coinbase
  /\ In coinbase (candidates twoWallets) /\ hasFlag Coinbase coinbase = true.
Proof.
  split; [reflexivity|].
  apply (proj1 (proj2 (getEthProvider_first_flagged_candidate Coinbase)) twoWallets coinbase).
  reflexivity.
Defined.

(** X7.  [activateEthProvider] never throws and returns what
    [getEthProvider] returns.  It calls [setSelectedProvider] at most once,
    and only with the provider it returns, which then carries the requested
    flag and is not [window.ethereum] itself; with a single installed wallet
    (no [providers] list) it never calls it. *)
Theorem activateEthProvider_selects_only_other_wallets
    (ethereum : option Ethereum) (providerName : EthProvider) :
  let a := activateEthProvider ethereum providerName in
  activated a = Returns (getEthProvider ethereum providerName)
  /\ (length (selectedProviders a) <= 1)%nat
  /\ (forall p, In p (selectedProviders a) ->
        getEthProvider ethereum providerName = Some p
        /\ hasFlag providerName p = true
        /\ exists eth, ethereum = Some eth /\ walletId p <> walletId (self eth))
  /\ (forall eth, ethereum = Some eth -> providers eth = None ->
        selectedProviders a = []).
Proof.
  cbn zeta. unfold activateEthProvider.
  destruct ethereum as [eth|]; [|cbn; repeat split; try lia; intros ? []].
  destruct (getEthProvider (Some eth) providerName) as [p|] eqn:Hp;
    [|cbn; repeat split; try lia; intros ? []].
  pose proof Hp as Hfind. rewrite getEthProvider_find in Hfind.
  apply List.find_some in Hfind as [Hin Hflag].
  destruct (Pos.eqb_spec (walletId p) (walletId (self eth))) as [Heq|Hne]; cbn.
  - repeat split; try lia; intros ? [].
  - split; [reflexivity|]. split; [lia|]. split.
    + intros q [<-|[]]. repeat split; [done|]. by exists eth.
    + intros eth' [= <-] Hnone. exfalso. apply Hne.
      unfold candidates in Hin. rewrite Hnone in Hin.
      by destruct Hin as [<-|[]].
Qed.

Lemma activateEthProvider_selects_only_other_wallets_witness :
  In coinbase (selectedProviders (activateEthProvider (Some twoWallets) Coinbase))
  /\ hasFlag Coinbase coinbase = true.
Proof.
  split; [left; reflexivity|].
  apply (proj1 (proj2 (proj2 (activateEthProvider_selects_only_other_wallets
                                (Some twoWallets) Coinbase))) coinbase).
  left. reflexivity.
Defined.

End WalletProvidersFacts.

(** ** More on the cached login *)

Module CachedLoginMore.
Import Js CachedLogin Scenarios MoreScenarios CachedLoginFacts.

(** Calls that are not part of the decryption step do not occur in its
    log. *)
Lemma not_resolving_absent (key : string) (e : Event) (evs : list Event) :
  ~ resolvingCall key e -> Forall (resolvingCall key) evs -> e ∉ evs.
Proof.
  intros He Hall Hin. apply He. by apply (proj1 (Forall_forall _ _) Hall).
Qed.

(** A second pass over the keys is not "at most once": the steps of the
    doubled log are in order, but its decryptions are not one pass. *)
Example doubled_pass_is_not_once :
  stepsInOrder (steps doubledPassLog)
  /\ ~ onceEachInOrder (QueryReturned response) doubledPassLog.
Proof.
  split; [by exists true, true, false, 6%nat|].
  intros [_ [[Hnone|(res & tried & [= <-] & Htried & Hprefix)] _]];
    [discriminate|].
  cbn in Htried. injection Htried as <-.
  apply prefix_length in Hprefix. cbn in Hprefix. lia.
Qed.

(** Absence of a call from a log built of literal calls and the log of the
    decryption step. *)
Ltac absent_from_log Hresolving :=
  rewrite ?not_elem_of_app, ?not_elem_of_cons;
  repeat split;
  first [ discriminate
        | apply not_elem_of_nil
        | eapply not_resolving_absent; [|exact Hresolving]; intros [] ].

Section Runs.
Context (E : Environment).

(** A key that decrypts, or a user found before, makes the loop end with a
    user. *)
Lemma tryAlternativeKeys_finds (enc key : string) (alternatives : list string) :
  forall (acc : option User) (ls : gmap string string),
    is_Some acc
    \/ Exists (fun k => returned (decryptSessionCacheData E enc k) = true) alternatives ->
    is_Some (result (tryAlternativeKeys E enc key alternatives acc ls)).
Proof.
  induction alternatives as [|k rest IH]; intros acc ls H.
  - destruct H as [H|H]; [exact H|inversion H].
  - destruct (decryptSessionCacheData E enc k) as [d|] eqn:Hk.
    + rewrite (tryAlternativeKeys_returns E _ _ _ _ _ _ _ Hk). cbn zeta.
      destruct (returned _); [by eexists|].
      rewrite result_after. apply IH. left. by eexists.
    + rewrite (tryAlternativeKeys_throws E _ _ _ _ _ _ Hk), result_after.
      apply IH. destruct H as [H|H]; [by left|right].
      inversion H as [? ? Hd|]; subst; [|done]. rewrite Hk in Hd. discriminate.
Qed.

Lemma resolveDecryptedUser_finds (enc : string) (res : SessionCacheResponse)
    (ls : gmap string string) :
  Exists (fun k => returned (decryptSessionCacheData E enc k) = true)
    (cacheKey res :: alternativeCacheKeys res) ->
  is_Some (result (resolveDecryptedUser E enc res ls)).
Proof.
  intros H.
  destruct (decryptSessionCacheData E enc (cacheKey res)) as [d|] eqn:Hk.
  - rewrite (resolveDecryptedUser_primary E _ _ _ _ Hk),
      (tryPrimaryKey_returns E _ _ _ _ Hk). cbn zeta.
    destruct (ls !! _); [by eexists|]. destruct (returned _); by eexists.
  - rewrite (resolveDecryptedUser_fallback E _ _ _ Hk), result_after.
    apply tryAlternativeKeys_finds. right.
    inversion H as [? ? Hd|]; subst; [|done]. rewrite Hk in Hd. discriminate.
Qed.

(** X8.  [tryCachedLogin] returns true exactly when the page is not framed,
    a non-empty blob is stored, the server query returns, and the blob
    decrypts under the primary key or one of the alternative keys. *)
Theorem tryCachedLogin_succeeds_iff (ls : gmap string string) :
  result (tryCachedLogin E ls) = true
  <-> insideFrame E = false
      /\ exists enc res,
           getSessionCacheForLatestUser E ls = Some enc
           /\ enc <> ""
           /\ client_query E = QueryReturned res
           /\ Exists (fun k => returned (decryptSessionCacheData E enc k) = true)
                (cacheKey res :: alternativeCacheKeys res).
Proof.
  destruct (insideFrame E) eqn:Hframe.
  { rewrite (tryCachedLogin_in_frame E ls Hframe). cbn. split; [done|by intros [? _]]. }
  destruct (falsy_string (getSessionCacheForLatestUser E ls)) eqn:Hfalsy.
  { rewrite (tryCachedLogin_no_blob E ls Hframe Hfalsy). cbn. split; [done|].
    intros (_ & enc & res & Hblob & Hne & _). rewrite Hblob in Hfalsy.
    by destruct enc. }
  destruct (getSessionCacheForLatestUser E ls) as [enc|] eqn:Hblob; [|discriminate].
  assert (Hne : enc <> "") by (intros ->; discriminate).
  destruct (client_query E) as [res|e] eqn:Hq.
  - rewrite (tryCachedLogin_run E ls enc res Hframe Hblob Hne Hq). cbn zeta.
    destruct (result (resolveDecryptedUser E enc res ls)) as [u|] eqn:Hres; cbn [result].
    + split; [intros _|done]. split; [done|]. exists enc, res. repeat split; try done.
      destruct (resolveDecryptedUser_result E _ _ _ _ Hres) as (k & d & Hin & Hd & _).
      apply Exists_exists. exists k. split; [done|]. by rewrite Hd.
    + split; [done|]. intros (_ & enc' & res' & [= <-] & _ & [= <-] & Hex).
      apply (resolveDecryptedUser_finds enc res ls) in Hex as [u Hu]. congruence.
  - rewrite (tryCachedLogin_query_threw E ls enc e Hframe Hblob Hne Hq), onQueryError_run.
    split.
    + by destruct (sessionCacheIsInvalid E e).
    + by intros (_ & enc' & res' & _ & _ & [=] & _).
Qed.

(** X9.  A run that returns true never clears the latest-user-ID cache, never
    moves to another user and never reloads the page; a run that returns
    false never saves user data. *)
Theorem tryCachedLogin_success_keeps_user_failure_saves_nothing (ls : gmap string string) :
  let r := tryCachedLogin E ls in
  if result r
  then (ClearLatestUserIDCache ∉ events r)
       /\ (SetNextUUID ∉ events r)
       /\ (WindowLocationReload ∉ events r)
  else savedUsers (events r) = [].
Proof.
  cbn zeta.
  destruct (insideFrame E) eqn:Hframe.
  { by rewrite (tryCachedLogin_in_frame E ls Hframe). }
  destruct (falsy_string (getSessionCacheForLatestUser E ls)) eqn:Hfalsy.
  { by rewrite (tryCachedLogin_no_blob E ls Hframe Hfalsy). }
  destruct (getSessionCacheForLatestUser E ls) as [enc|] eqn:Hblob; [|discriminate].
  assert (Hne : enc <> "") by (intros ->; discriminate).
  destruct (client_query E) as [res|e] eqn:Hq.
  - rewrite (tryCachedLogin_run E ls enc res Hframe Hblob Hne Hq). cbn zeta.
    pose proof (resolveDecryptedUser_resolving E enc res ls) as Hresolving.
    destruct (result (resolveDecryptedUser E enc res ls)) as [u|]; cbn [result events].
    + destruct (isMobileApp E); repeat split; absent_from_log Hresolving.
    + destruct (resolving_log _ _ Hresolving) as (_ & Hsaved & _).
      unfold savedUsers in *. rewrite !omap_app, Hsaved.
      by destruct (setNextUUID E _).1.
  - rewrite (tryCachedLogin_query_threw E ls enc e Hframe Hblob Hne Hq), onQueryError_run.
    destruct (sessionCacheIsInvalid E e); cbn; [|done].
    by destruct (setNextUUID E _).1.
Qed.


(** X10.  Once the blob is stored under the per-user-ID key, a run whose
    primary key decrypts it writes no session cache, removes nothing and
    leaves local storage exactly as it found it. *)
Theorem tryCachedLogin_already_migrated (ls : gmap string string) (enc : string)
    (res : SessionCacheResponse) (d : SessionCacheData) :
  insideFrame E = false ->
  getSessionCacheForLatestUser E ls = Some enc ->
  enc <> "" ->
  client_query E = QueryReturned res ->
  decryptSessionCacheData E enc (cacheKey res) = Returns d ->
  is_Some (ls !! getSessionCacheKeyForUserID E (userID (user d))) ->
  let merged := refreshUser (currentUser res) (user d) in
  tryCachedLogin E ls
  = MkRun true ls
      ([GetSessionCacheForLatestUser; QueryGetSessionCache;
        DecryptSessionCacheData enc (cacheKey res);
        LocalStorageGetItem (getSessionCacheKeyForUserID E (userID (user d)));
        SaveCurrentUserData merged]
       ++ (if isMobileApp E then [SendUserDataToMobileApp merged] else [])
       ++ [QueryCurrentUserEmailAliases]).
Proof.
  intros Hframe Hblob Hne Hq Hd [item Hitem] merged.
  rewrite (tryCachedLogin_run E ls enc res Hframe Hblob Hne Hq). cbn zeta.
  rewrite (resolveDecryptedUser_primary E _ _ _ _ Hd),
    (tryPrimaryKey_returns E _ _ _ _ Hd). cbn zeta.
  by rewrite Hitem.
Qed.

(** X11.  Whatever the collaborators do, the primary key is the first key
    handed to [decryptSessionCacheData]; the alternative keys that follow are
    an initial segment of the server's list, in its order, so each position
    of the list is tried at most once; and no alternative is tried when the
    primary key decrypts. *)
Theorem decryption_attempts_follow_server_order (ls : gmap string string)
    (enc : string) (res : SessionCacheResponse) :
  insideFrame E = false ->
  getSessionCacheForLatestUser E ls = Some enc ->
  enc <> "" ->
  client_query E = QueryReturned res ->
  exists tried,
    decryptionAttempts (events (tryCachedLogin E ls)) = cacheKey res :: tried
    /\ tried `prefix_of` alternativeCacheKeys res
    /\ (length tried <= length (alternativeCacheKeys res))%nat
    /\ (returned (decryptSessionCacheData E enc (cacheKey res)) = true -> tried = []).
Proof.
  intros Hframe Hblob Hne Hq.
  rewrite (tryCachedLogin_attempts E ls enc res Hframe Hblob Hne Hq).
  destruct (resolveDecryptedUser_attempts E enc res ls) as (tried & Heq & Hprefix & Hnone).
  exists tried. repeat split; try done. by apply prefix_length.
Qed.

(** X12.  When the primary key fails and the write after the first
    alternative key that decrypts returns, that key wins: the keys after it
    are never tried, the data is written once under the primary key, the
    user it decrypted is the one reconciled and saved, and storage is what
    the write left. *)
Theorem first_matching_alternative_wins (ls : gmap string string) (enc : string)
    (res : SessionCacheResponse) (failing rest : list string) (k : string)
    (d : SessionCacheData) :
  insideFrame E = false ->
  getSessionCacheForLatestUser E ls = Some enc ->
  enc <> "" ->
  client_query E = QueryReturned res ->
  decryptSessionCacheData E enc (cacheKey res) = Throws ->
  alternativeCacheKeys res = failing ++ k :: rest ->
  Forall (fun k' => decryptSessionCacheData E enc k' = Throws) failing ->
  decryptSessionCacheData E enc k = Returns d ->
  returned (writeSessionCacheData E d (cacheKey res) ls).1 = true ->
  let merged := refreshUser (currentUser res) (user d) in
  tryCachedLogin E ls
  = MkRun true (writeSessionCacheData E d (cacheKey res) ls).2
      ([GetSessionCacheForLatestUser; QueryGetSessionCache;
        DecryptSessionCacheData enc (cacheKey res)]
       ++ (DecryptSessionCacheData enc <$> failing)
       ++ [DecryptSessionCacheData enc k; WriteSessionCacheData d (cacheKey res);
           SaveCurrentUserData merged]
       ++ (if isMobileApp E then [SendUserDataToMobileApp merged] else [])
       ++ [QueryCurrentUserEmailAliases]).
Proof.
  intros Hframe Hblob Hne Hq Hprimary Halts Hfailing Hk Hw merged.
  rewrite (tryCachedLogin_run E ls enc res Hframe Hblob Hne Hq). cbn zeta.
  rewrite (resolveDecryptedUser_fallback E _ _ _ Hprimary), Halts,
    (tryAlternativeKeys_failing_prefix E _ _ _ _ _ _ Hfailing),
    (tryAlternativeKeys_returns E _ _ _ _ _ _ _ Hk). cbn zeta.
  rewrite Hw. cbn. f_equal. f_equal. f_equal. f_equal.
  rewrite <- !app_assoc. reflexivity.
Qed.

Lemma tryAlternativeKeys_one_write (enc key : string) (alternatives : list string) :
  (forall d ls, returned (writeSessionCacheData E d key ls).1 = true) ->
  forall (acc : option User) (ls : gmap string string),
    (length (sessionCacheWrites (events (tryAlternativeKeys E enc key alternatives acc ls)))
     <= 1)%nat.
Proof.
  intros Hw. induction alternatives as [|k rest IH]; intros acc ls; [cbn; lia|].
  destruct (decryptSessionCacheData E enc k) as [d|] eqn:Hk.
  - rewrite (tryAlternativeKeys_returns E _ _ _ _ _ _ _ Hk). cbn zeta.
    rewrite Hw. cbn. lia.
  - rewrite (tryAlternativeKeys_throws E _ _ _ _ _ _ Hk), events_after. apply IH.
Qed.

(** X13.  When no write throws, the whole run hands the keys to
    [decryptSessionCacheData] in this order: the primary key; then, only if
    it failed, the alternative keys in the server's order up to and including
    the first one that decrypts.  Such a run calls [writeSessionCacheData] at
    most once. *)
Theorem decryption_stops_at_first_match_when_writes_return (ls : gmap string string)
    (enc : string) (res : SessionCacheResponse) :
  insideFrame E = false ->
  getSessionCacheForLatestUser E ls = Some enc ->
  enc <> "" ->
  client_query E = QueryReturned res ->
  (forall d ls', returned (writeSessionCacheData E d (cacheKey res) ls').1 = true) ->
  decryptionAttempts (events (tryCachedLogin E ls))
  = claimedAttempts (fun k => returned (decryptSessionCacheData E enc k)) res
  /\ (length (sessionCacheWrites (events (tryCachedLogin E ls))) <= 1)%nat.
Proof.
  intros Hframe Hblob Hne Hq Hw. split.
  - rewrite (tryCachedLogin_attempts E ls enc res Hframe Hblob Hne Hq).
    by apply resolveDecryptedUser_attempts_when_writes_return.
  - rewrite (tryCachedLogin_writes E ls enc res Hframe Hblob Hne Hq).
    destruct (decryptSessionCacheData E enc (cacheKey res)) as [d|] eqn:Hk.
    + rewrite (resolveDecryptedUser_primary E _ _ _ _ Hk),
        (tryPrimaryKey_returns E _ _ _ _ Hk). cbn zeta.
      destruct (ls !! _); [cbn; lia|]. destruct (returned _); cbn; lia.
    + rewrite (resolveDecryptedUser_fallback E _ _ _ Hk), events_after.
      by apply tryAlternativeKeys_one_write.
Qed.

(** Storage under a key that the collaborators leave alone and that is not
    the old-format key. *)
Section Frame.
Context (k : string).
Context (Hkey : k <> storageKey_SESSION_CACHE E).
Context (Hwrite : forall d key ls, (writeSessionCacheData E d key ls).2 !! k = ls !! k).
Context (Hclear : forall ls, clearLatestUserIDCache E ls !! k = ls !! k).
Context (Hnext : forall ls, (setNextUUID E ls).2 !! k = ls !! k).

Lemma tryAlternativeKeys_frame (enc key : string) (alternatives : list string) :
  forall (acc : option User) (ls : gmap string string),
    storage (tryAlternativeKeys E enc key alternatives acc ls) !! k = ls !! k.
Proof.
  induction alternatives as [|k' rest IH]; intros acc ls; [reflexivity|].
  destruct (decryptSessionCacheData E enc k') as [d|] eqn:Hk.
  - rewrite (tryAlternativeKeys_returns E _ _ _ _ _ _ _ Hk). cbn zeta.
    destruct (returned _); [apply Hwrite|].
    by rewrite storage_after, IH, Hwrite.
  - by rewrite (tryAlternativeKeys_throws E _ _ _ _ _ _ Hk), storage_after, IH.
Qed.

Lemma resolveDecryptedUser_frame (enc : string) (res : SessionCacheResponse)
    (ls : gmap string string) :
  storage (resolveDecryptedUser E enc res ls) !! k = ls !! k.
Proof.
  destruct (decryptSessionCacheData E enc (cacheKey res)) as [d|] eqn:Hk.
  - rewrite (resolveDecryptedUser_primary E _ _ _ _ Hk),
      (tryPrimaryKey_returns E _ _ _ _ Hk). cbn zeta.
    destruct (ls !! getSessionCacheKeyForUserID E _); [reflexivity|].
    destruct (returned _); cbn [storage]; [|apply Hwrite].
    rewrite lookup_delete_ne by done. apply Hwrite.
  - rewrite (resolveDecryptedUser_fallback E _ _ _ Hk), storage_after.
    apply tryAlternativeKeys_frame.
Qed.

(** X14.  [tryCachedLogin] itself removes nothing from local storage but the
    old-format entry: a key other than the old-format key that
    [writeSessionCacheData], [clearLatestUserIDCache] and [setNextUUID] leave
    alone holds after the run what it held before, on every path. *)
Theorem tryCachedLogin_storage_frame (ls : gmap string string) :
  storage (tryCachedLogin E ls) !! k = ls !! k.
Proof.
  destruct (insideFrame E) eqn:Hframe.
  { by rewrite (tryCachedLogin_in_frame E ls Hframe). }
  destruct (falsy_string (getSessionCacheForLatestUser E ls)) eqn:Hfalsy.
  { by rewrite (tryCachedLogin_no_blob E ls Hframe Hfalsy). }
  destruct (getSessionCacheForLatestUser E ls) as [enc|] eqn:Hblob; [|discriminate].
  assert (Hne : enc <> "") by (intros ->; discriminate).
  destruct (client_query E) as [res|e] eqn:Hq.
  - rewrite (tryCachedLogin_run E ls enc res Hframe Hblob Hne Hq). cbn zeta.
    destruct (result (resolveDecryptedUser E enc res ls)); cbn [storage].
    + apply resolveDecryptedUser_frame.
    + by rewrite Hnext, Hclear, resolveDecryptedUser_frame.
  - rewrite (tryCachedLogin_query_threw E ls enc e Hframe Hblob Hne Hq), onQueryError_run.
    destruct (sessionCacheIsInvalid E e); cbn [storage after]; [|reflexivity].
    by rewrite Hnext, Hclear.
Qed.

End Frame.

End Runs.

(** X15.  Reconciling twice with the same server data is reconciling once. *)
Theorem refreshUser_idempotent (fresh : option RefreshedUser) (u : User) :
  refreshUser fresh (refreshUser fresh u) = refreshUser fresh u.
Proof.
  destruct fresh as [[re ure wa ro pd]|]; [|reflexivity].
  unfold refreshUser. cbn.
  destruct (is_defined re), (is_defined ure), (truthy wa), (truthy ro); reflexivity.
Qed.

(** X16.  The server cannot clear a wallet address or a root organisation:
    a truthy [walletAddress] or [rootOrgID] is still truthy after the
    reconciliation, whatever the server sent.  A [null] recovery email from
    the server does replace the local one. *)
Theorem refreshUser_keeps_wallet_and_org (fresh : option RefreshedUser) (u : User) :
  (truthy (walletAddress u) = true ->
   truthy (walletAddress (refreshUser fresh u)) = true)
  /\ (truthy (rootOrgID u) = true ->
      truthy (rootOrgID (refreshUser fresh u)) = true)
  /\ (forall f, fresh = Some f -> fresh_recoveryEmail f = VNull ->
        recoveryEmail (refreshUser fresh u) = VNull).
Proof.
  destruct fresh as [[re ure wa ro pd]|]; cbn.
  - split; [|split].
    + by destruct (truthy wa) eqn:Hwa.
    + by destruct (truthy ro) eqn:Hro.
    + intros f [= <-]. cbn. by intros ->.
  - repeat split; done.
Qed.

Lemma tryCachedLogin_already_migrated_witness :
  is_Some (migratedStorage !! "sessionCache:alice")
  /\ storage (tryCachedLogin healthyBrowser migratedStorage) = migratedStorage.
Proof.
  split; [by eexists|].
  rewrite (tryCachedLogin_already_migrated healthyBrowser migratedStorage "blob"
             response aliceCache);
    [reflexivity | reflexivity | reflexivity | discriminate | reflexivity | reflexivity
    | by eexists].
Defined.

Lemma decryption_attempts_follow_server_order_witness :
  client_query rotatedKeyBrowser = QueryReturned response
  /\ exists tried,
       decryptionAttempts (events (tryCachedLogin rotatedKeyBrowser oldFormatStorage))
       = "primary" :: tried.
Proof.
  split; [reflexivity|].
  destruct (decryption_attempts_follow_server_order rotatedKeyBrowser oldFormatStorage
              "blob" response) as (tried & Heq & _);
    [reflexivity | reflexivity | discriminate | reflexivity |].
  by exists tried.
Defined.

Lemma first_matching_alternative_wins_witness :
  decryptSessionCacheData rotatedKeyBrowser "blob" "old2" = Returns aliceCache
  /\ result (tryCachedLogin rotatedKeyBrowser oldFormatStorage) = true.
Proof.
  split; [reflexivity|].
  rewrite (first_matching_alternative_wins rotatedKeyBrowser oldFormatStorage "blob"
             response ["old1"] [] "old2" aliceCache);
    [reflexivity | reflexivity | reflexivity | discriminate | reflexivity | reflexivity
    | reflexivity | repeat constructor | reflexivity | reflexivity].
Defined.

Lemma decryption_stops_at_first_match_when_writes_return_witness :
  (forall d ls',
      returned (writeSessionCacheData rotatedKeyBrowser d (cacheKey response) ls').1 = true)
  /\ decryptionAttempts (events (tryCachedLogin rotatedKeyBrowser oldFormatStorage))
     = ["primary"; "old1"; "old2"].
Proof.
  split; [reflexivity|].
  rewrite (proj1 (decryption_stops_at_first_match_when_writes_return rotatedKeyBrowser
                    oldFormatStorage "blob" response eq_refl eq_refl
                    ltac:(discriminate) eq_refl (fun _ _ => eq_refl))).
  reflexivity.
Defined.

Lemma tryCachedLogin_storage_frame_witness :
  "theme" <> storageKey_SESSION_CACHE healthyBrowser
  /\ storage (tryCachedLogin healthyBrowser (<["theme" := "dark"]> oldFormatStorage))
       !! "theme"
     = Some "dark".
Proof.
  split; [discriminate|].
  rewrite (tryCachedLogin_storage_frame healthyBrowser "theme").
  - reflexivity.
  - discriminate.
  - intros d key ls. cbn. apply lookup_insert_ne. discriminate.
  - intros ls. cbn. apply lookup_delete_ne. discriminate.
  - intros ls. cbn. apply lookup_insert_ne. discriminate.
Defined.

Lemma refreshUser_keeps_wallet_and_org_witness :
  truthy (walletAddress alice) = true
  /\ truthy (walletAddress (refreshUser (Some freshAlice) alice)) = true.
Proof.
  split; [reflexivity|].
  apply (proj1 (refreshUser_keeps_wallet_and_org (Some freshAlice) alice)). reflexivity.
Defined.

End CachedLoginMore.
